(** * fp-ts-contrib: the [Semialign] and [Align] type classes

    A shallow embedding of [src/Semialign.ts] and [src/Align.ts], and the
    properties their specification states about them.

    Modelling conventions.
    - A JavaScript [Array<A>] is a dense [list A].  Reading [a[i]] past the end
      yields [undefined] in JavaScript and writing [a[i] = v] past the end
      leaves holes; both are made observable here as errors of the [result]
      monad, so that a theorem [... = Ok v] also says that every index the code
      touches is in range.
    - A [Record<string, A>] is an object whose prototype is
      [Object.prototype] (an object literal, a result of [JSON.parse], the
      [{}] the functions start from) and whose own properties are enumerable
      data properties with string keys, as the list of these properties, keys
      unique, in the order in which [Object.keys] lists them: the array-index
      keys in ascending order, then the other keys in the order of their
      creation.  Three keys are special in the code and in the model.  An own
      property [hasOwnProperty] shadows the method the code calls on the
      object.  An assignment to [__proto__] on an object without that own
      property runs the setter of [Object.prototype] and creates no property;
      the prototype it may install is not part of the model: two records
      are equal when their own properties are, and every property below in
      which a record built this way is aligned again, so that a method is
      called on it, assumes that no key is [__proto__].  An array-index key
      is created in its numeric place.  Reading [o[k]] where [o] has no own
      property [k] yields [undefined] or an inherited value in JavaScript; it
      is an error here, so that a theorem [... = Ok v] also says that every
      property the code reads is an own property.
    - [Option], [These], [catOptions], [tuple], [identity] and the functor
      [map] of each container come from the fp-ts prelude, which the
      repository imports; they are written out below as that prelude
      defines them.
    - Callbacks ([f], [S.concat]) are pure total functions. *)

From stdpp Require Import base list strings.

Set Default Proof Using "Type".

(** ** Errors and the result monad *)

Inductive error : Type :=
| ReadOutOfRange (i len : nat)     (* [a[i]] with [len <= i]: [undefined] *)
| WriteLeavesHole (i len : nat)    (* [a[i] = v] with [len < i]: a sparse array *)
| MissingProperty (k : string)     (* [o[k]] where [o] has no own property [k] *)
| NotAFunction (k : string).       (* [o.k(...)] where [o.k] is not a function:
                                      a [TypeError] *)

Inductive result (A : Type) : Type :=
| Ok (a : A)
| Err (e : error).

Arguments Ok {A} a.
Arguments Err {A} e.

Definition bind {A B} (m : result A) (k : A -> result B) : result B :=
  match m with
  | Ok a => k a
  | Err e => Err e
  end.

Notation "x <- m ;; k" := (bind m (fun x => k))
  (at level 100, m at next level, right associativity).

(** ** The fp-ts prelude *)

(** [These<A, B>] with its constructors [this_], [that], [both]. *)
Inductive These (A B : Type) : Type :=
| this_ (a : A)
| that (b : B)
| both (a : A) (b : B).

Arguments this_ {A B} a.
Arguments that {A B} b.
Arguments both {A B} a b.

(** [t.fold(onThis, onThat, onBoth)] *)
Definition These_fold {A B R} (t : These A B)
    (onThis : A -> R) (onThat : B -> R) (onBoth : A -> B -> R) : R :=
  match t with
  | this_ a => onThis a
  | that b => onThat b
  | both a b => onBoth a b
  end.

(** [t.bimap(f, g)] *)
Definition These_bimap {A B A' B'} (t : These A B) (f : A -> A') (g : B -> B')
    : These A' B' :=
  match t with
  | this_ a => this_ (f a)
  | that b => that (g b)
  | both a b => both (f a) (g b)
  end.

(** [Option<A>] is [option A]; [some] and [none] are its constructors. *)
Definition some {A} (a : A) : option A := Some a.
Definition none {A} : option A := None.

(** [ma.map(f)] on [Option]. *)
Definition Option_map {A B} (ma : option A) (f : A -> B) : option B :=
  match ma with
  | Some a => some (f a)
  | None => none
  end.

Definition identity {A} (a : A) : A := a.

Definition tuple {A B} (a : A) (b : B) : A * B := (a, b).

(** [catOptions(as)]: the values of the present entries, in order. *)
Fixpoint catOptions {A} (l : list (option A)) : list A :=
  match l with
  | [] => []
  | Some a :: l' => a :: catOptions l'
  | None :: l' => catOptions l'
  end.

(** [Semigroup<A>] *)
Record Semigroup (A : Type) : Type := { concat : A -> A -> A }.

Arguments concat {A} _ _ _.

(** [semigroupSum]: the sum of two numbers, here on integers.  JavaScript adds
    doubles, which agrees with this on integers as long as the sums stay
    below [2^53] in magnitude; it is used at the specification's example
    only. *)
Definition semigroupSum : Semigroup Z := {| concat := Z.add |}.

(** [semigroupAll]: the conjunction of two booleans. *)
Definition semigroupAll : Semigroup bool := {| concat := andb |}.

(** [getFirstSemigroup()]: the first of two values. *)
Definition getFirstSemigroup {A} : Semigroup A := {| concat := fun x _ => x |}.

(** [NonEmptyArray<A>]: a head and a tail. *)
Record NonEmptyArray (A : Type) : Type :=
  MkNonEmptyArray { head : A; tail : list A }.

Arguments MkNonEmptyArray {A} head tail.
Arguments head {A} _.
Arguments tail {A} _.

(** ** Arrays and loops *)

(** [a[i]] *)
Definition arr_get {A} (a : list A) (i : nat) : result A :=
  match a !! i with
  | Some x => Ok x
  | None => Err (ReadOutOfRange i (length a))
  end.

(** [a[i] = v]: overwrites inside the array, appends at its end. *)
Definition arr_set {A} (a : list A) (i : nat) (v : A) : result (list A) :=
  if decide (i < length a) then Ok (<[i:=v]> a)
  else if decide (i = length a) then Ok (a ++ [v])
  else Err (WriteLeavesHole i (length a)).

(** [for (let i = lo; i < hi; i++) body]: with [hi] fixed the body runs for
    [i = lo, lo+1, ..., hi-1], that is [hi - lo] times. *)
Fixpoint for_from {St} (n i : nat) (body : nat -> St -> result St) (s : St)
    : result St :=
  match n with
  | O => Ok s
  | S n' => s' <- body i s ;; for_from n' (S i) body s'
  end.

Definition for_loop {St} (lo hi : nat) (body : nat -> St -> result St)
    (s : St) : result St :=
  for_from (hi - lo) lo body s.

(** [for (const x of xs) body] *)
Fixpoint for_of {A St} (xs : list A) (body : A -> St -> result St) (s : St)
    : result St :=
  match xs with
  | [] => Ok s
  | x :: xs' => s' <- body x s ;; for_of xs' body s'
  end.

(** ** Records *)

(** [Record<string, A>]: the own properties, in the order of [Object.keys]. *)
Definition Record (A : Type) : Type := list (string * A).

(** [Object.keys(o)] *)
Definition Object_keys {A} (o : Record A) : list string := o.*1.

(** The value stored under [k], if [o] has that property. *)
Fixpoint own {A} (o : Record A) (k : string) : option A :=
  match o with
  | [] => None
  | (k', a) :: o' => if decide (k = k') then Some a else own o' k
  end.

(** [Object.prototype.hasOwnProperty], applied to [o] and [k]. *)
Definition has_own {A} (o : Record A) (k : string) : bool :=
  match own o k with
  | Some _ => true
  | None => false
  end.

(** What calling a value of a record as a method of that record does: [None]
    when the value is not a function, [Some g] when it is, [g o k] telling
    whether the call [o.hasOwnProperty(k)], with the record [o] as [this],
    returns a truthy value (a function stored in a record is taken to be pure
    and total, like the callbacks). *)
Definition Calls : Type :=
  forall A : Type, A -> option (list (string * A) -> string -> bool).

(** The records whose values are data (numbers, booleans, strings): no value
    is a function. *)
Definition no_function : Calls := fun _ _ => None.

(** [o.hasOwnProperty(k)]: the method of [Object.prototype], unless [o] has an
    own property [hasOwnProperty]; then that value is called instead. *)
Definition hasOwnProperty (call : Calls) {A} (o : Record A) (k : string)
    : result bool :=
  match own o "hasOwnProperty" with
  | None => Ok (has_own o k)
  | Some v =>
      match call A v with
      | Some g => Ok (g o k)
      | None => Err (NotAFunction "hasOwnProperty")
      end
  end.

(** [o[k]] *)
Definition prop_get {A} (o : Record A) (k : string) : result A :=
  match own o k with
  | Some a => Ok a
  | None => Err (MissingProperty k)
  end.

(** The value of a decimal digit. *)
Definition digit_of (c : Ascii.ascii) : option N :=
  let n := Ascii.N_of_ascii c in
  if ((48 <=? n) && (n <=? 57))%N then Some (n - 48)%N else None.

(** The number a string of decimal digits denotes, after the digits [acc]. *)
Fixpoint digits_value (acc : N) (s : string) : option N :=
  match s with
  | EmptyString => Some acc
  | String c s' =>
      match digit_of c with
      | Some d => digits_value (10 * acc + d) s'
      | None => None
      end
  end.

(** The array index a key denotes: the key is the decimal numeral, without
    leading zeros, of an integer from [0] to [2^32 - 2]. *)
Definition array_index (k : string) : option N :=
  match k with
  | EmptyString => None
  | String c s' =>
      match digit_of c with
      | None => None
      | Some d =>
          if (d =? 0)%N then
            match s' with
            | EmptyString => Some 0%N
            | String _ _ => None
            end
          else
            match digits_value d s' with
            | Some n => if (n <? 4294967295)%N then Some n else None
            | None => None
            end
      end
  end.

(** [o[k] = v] where [o] has the property [k]: the property keeps its
    place. *)
Fixpoint overwrite {A} (o : Record A) (k : string) (v : A) : Record A :=
  match o with
  | [] => []
  | (k', a) :: o' =>
      if decide (k = k') then (k', v) :: o' else (k', a) :: overwrite o' k v
  end.

(** A new property whose key is the array index [n]: it is listed after the
    array-index keys up to [n] and before every other key. *)
Fixpoint insert_index {A} (o : Record A) (n : N) (k : string) (v : A)
    : Record A :=
  match o with
  | [] => [(k, v)]
  | (k', a) :: o' =>
      match array_index k' with
      | Some n' =>
          if (n' <=? n)%N then (k', a) :: insert_index o' n k v
          else (k, v) :: (k', a) :: o'
      | None => (k, v) :: (k', a) :: o'
      end
  end.

(** [o[k] = v] on an object whose prototype is [Object.prototype]: an existing
    property is overwritten; otherwise the key [__proto__] reaches the setter
    of the prototype and no property is created; otherwise the property is
    created, an array index in its numeric place and any other key after all
    the others. *)
Definition prop_set {A} (o : Record A) (k : string) (v : A) : Record A :=
  if has_own o k then overwrite o k v
  else if decide (k = "__proto__") then o
  else
    match array_index k with
    | Some n => insert_index o n k v
    | None => o ++ [(k, v)]
    end.

(** A JavaScript object has each key once. *)
Definition wf_record {A} (o : Record A) : Prop := NoDup (Object_keys o).

(** An object without the two keys that the code does not treat as data:
    [hasOwnProperty], which shadows the method called on the object, and
    [__proto__], whose assignment creates no property. *)
Definition ordinary_keys {A} (o : Record A) : Prop :=
  wf_record o /\ own o "hasOwnProperty" = None /\ own o "__proto__" = None.

(** No key is an array index: [Object.keys] lists the properties in the order
    of their creation. *)
Definition no_index_keys {A} (o : Record A) : Prop :=
  Forall (fun k => array_index k = None) (Object_keys o).

Definition plain_keys {A} (o : Record A) : Prop :=
  ordinary_keys o /\ no_index_keys o.

(** One key may come before another in [Object.keys]: array indices in
    ascending order, and before the other keys. *)
Definition key_before (k1 k2 : string) : Prop :=
  match array_index k1, array_index k2 with
  | Some n1, Some n2 => (n1 <= n2)%N
  | Some _, None => True
  | None, Some _ => False
  | None, None => True
  end.

(** The properties are listed in the order of [Object.keys]. *)
Fixpoint enumerated {A} (o : Record A) : Prop :=
  match o with
  | [] => True
  | (k, _) :: o' => Forall (fun kv => key_before k kv.1) o' /\ enumerated o'
  end.

(** What holds of every record that the functions build from [{}]. *)
Definition built {A} (o : Record A) : Prop :=
  enumerated o /\ wf_record o /\ own o "__proto__" = None.

(** The values of a record changed by [f], the keys as they are. *)
Definition map_values {A B} (f : A -> B) (o : Record A) : Record B :=
  (fun kv => (kv.1, f kv.2)) <$> o.

(** ** Semialign.ts *)

Module Semialign.

(** The interface [Semialign<F>], which extends [Functor<F>]: a record of
    operations, handed explicitly to the generic combinators. *)
Record Semialign (T : Type -> Type) : Type := {
  map : forall {A B}, T A -> (A -> B) -> T B;
  align : forall {A B}, T A -> T B -> result (T (These A B));
  alignWith : forall {A B C}, T A -> T B -> (These A B -> C) -> result (T C)
}.

Arguments map {T} _ {A B} _ _.
Arguments align {T} _ {A B} _ _.
Arguments alignWith {T} _ {A B C} _ _ _.

(** *** [option] *)
Module option.

Definition map {A B} (fa : option A) (f : A -> B) : option B := Option_map fa f.

Definition alignWith {A B C} (fa : option A) (fb : option B)
    (f : These A B -> C) : result (option C) :=
  match fa, fb with
  | Some a, Some b => Ok (some (f (both a b)))  (* isSome && isSome *)
  | None, Some b => Ok (some (f (that b)))      (* isNone && isSome *)
  | Some a, None => Ok (some (f (this_ a)))     (* isSome && isNone *)
  | None, None => Ok none                       (* else *)
  end.

Definition align {A B} (fa : option A) (fb : option B)
    : result (option (These A B)) :=
  alignWith fa fb identity.

End option.

(** *** [array] *)
Module array.

Definition map {A B} (fa : list A) (f : A -> B) : list B := f <$> fa.

Definition alignWith {A B C} (fa : list A) (fb : list B) (f : These A B -> C)
    : result (list C) :=
  let fc := [] in
  let aLen := length fa in
  let bLen := length fb in
  let len := Nat.min aLen bLen in
  fc <- for_loop 0 len (fun i fc =>
          a <- arr_get fa i ;;
          b <- arr_get fb i ;;
          arr_set fc i (f (both a b))) fc ;;
  if decide (bLen < aLen) then   (* [aLen > bLen] *)
    for_loop bLen aLen (fun i fc =>
      a <- arr_get fa i ;;
      arr_set fc i (f (this_ a))) fc
  else
    for_loop aLen bLen (fun i fc =>
      b <- arr_get fb i ;;
      arr_set fc i (f (that b))) fc.

Definition align {A B} (fa : list A) (fb : list B)
    : result (list (These A B)) :=
  alignWith fa fb identity.

End array.

(** *** [nonEmptyArray] *)
Module nonEmptyArray.

Definition map {A B} (fa : NonEmptyArray A) (f : A -> B) : NonEmptyArray B :=
  MkNonEmptyArray (f (head fa)) (f <$> tail fa).

Definition alignWith {A B C} (fa : NonEmptyArray A) (fb : NonEmptyArray B)
    (f : These A B -> C) : result (NonEmptyArray C) :=
  let h := f (both (head fa) (head fb)) in
  t <- array.alignWith (tail fa) (tail fb) f ;;
  Ok (MkNonEmptyArray h t).

Definition align {A B} (fa : NonEmptyArray A) (fb : NonEmptyArray B)
    : result (NonEmptyArray (These A B)) :=
  let h := both (head fa) (head fb) in
  t <- array.align (tail fa) (tail fb) ;;
  Ok (MkNonEmptyArray h t).

End nonEmptyArray.

(** *** [record]
    The functions take [call], which tells what calling a value of a record
    does: [fb.hasOwnProperty(key)] calls such a value when [fb] has an own
    property [hasOwnProperty]. *)
Definition recordAlignWith (call : Calls) {A B C} (fa : Record A)
    (fb : Record B) (f : These A B -> C) : result (Record C) :=
  let r := [] in
  r <- for_of (Object_keys fa) (fun key r =>
         h <- hasOwnProperty call fb key ;;
         if h then
           a <- prop_get fa key ;;
           b <- prop_get fb key ;;
           Ok (prop_set r key (f (both a b)))
         else
           a <- prop_get fa key ;;
           Ok (prop_set r key (f (this_ a)))) r ;;
  for_of (Object_keys fb) (fun key r =>
    h <- hasOwnProperty call fa key ;;
    if negb h then
      b <- prop_get fb key ;;
      Ok (prop_set r key (f (that b)))
    else Ok r) r.

Definition recordAlign (call : Calls) {A B} (fa : Record A) (fb : Record B)
    : result (Record (These A B)) :=
  recordAlignWith call fa fb identity.

Module record.

(** [map] of the prelude: [r = {}], then [r[key] = f(fa[key])] for every key
    of [Object.keys(fa)]. *)
Definition map {A B} (fa : Record A) (f : A -> B) : Record B :=
  foldl (fun r kv => prop_set r kv.1 (f kv.2)) [] fa.

Definition alignWith (call : Calls) {A B C} := @recordAlignWith call A B C.

Definition align (call : Calls) {A B} := @recordAlign call A B.

End record.

(** The four instances as values of the interface. *)
Definition option_Semialign : Semialign option :=
  {| map := @option.map; align := @option.align;
     alignWith := @option.alignWith |}.

Definition array_Semialign : Semialign list :=
  {| map := @array.map; align := @array.align; alignWith := @array.alignWith |}.

Definition nonEmptyArray_Semialign : Semialign NonEmptyArray :=
  {| map := @nonEmptyArray.map; align := @nonEmptyArray.align;
     alignWith := @nonEmptyArray.alignWith |}.

Definition record_Semialign (call : Calls) : Semialign Record :=
  {| map := @record.map; align := @record.align call;
     alignWith := @record.alignWith call |}.

End Semialign.

(** ** Align.ts *)

Module Align.

(** The interface [Align<F>], which extends [Semialign<F>] with [nil]. *)
Record Align (T : Type -> Type) : Type := {
  semialign :> Semialign.Semialign T;
  nil : forall {A}, T A
}.

Arguments semialign {T} _.
Arguments nil {T} _ {A}.

Definition salign {T A} (F : Align T) (S : Semigroup A) (fx fy : T A)
    : result (T A) :=
  Semialign.alignWith F fx fy
    (fun xy => These_fold xy identity identity (concat S)).

Definition padZipWith {T A B C} (F : Align T) (fa : T A) (fb : T B)
    (f : option A -> option B -> C) : result (T C) :=
  Semialign.alignWith F fa fb (fun ab =>
    These_fold (These_bimap ab some some)
      (fun a => f a none) (fun b => f none b) (fun a b => f a b)).

Definition padZip {T A B} (F : Align T) (fa : T A) (fb : T B)
    : result (T (option A * option B)%type) :=
  padZipWith F fa fb (fun a b => tuple a b).

(** *** The instances *)
Module option.
Definition nil {A} : option A := none.
End option.

Module array.
Definition nil {A} : list A := [].
End array.

Module record.
Definition nil {A} : Record A := [].
End record.

Definition option_Align : Align option :=
  {| semialign := Semialign.option_Semialign; nil := @option.nil |}.

Definition array_Align : Align list :=
  {| semialign := Semialign.array_Semialign; nil := @array.nil |}.

Definition record_Align (call : Calls) : Align Record :=
  {| semialign := Semialign.record_Semialign call; nil := @record.nil |}.

(** *** The combinators on arrays *)
Definition lpadZipWith {A B C} (xs : list A) (ys : list B)
    (f : option A -> B -> C) : result (list C) :=
  r <- padZipWith array_Align xs ys
         (fun ma mb => Option_map mb (fun b => f ma b)) ;;
  Ok (catOptions r).

Definition lpadZip {A B} (xs : list A) (ys : list B)
    : result (list (option A * B)%type) :=
  lpadZipWith xs ys (fun a b => tuple a b).

Definition rpadZipWith {A B C} (xs : list A) (ys : list B)
    (f : A -> option B -> C) : result (list C) :=
  lpadZipWith ys xs (fun a b => f b a).

Definition rpadZip {A B} (xs : list A) (ys : list B)
    : result (list (A * option B)%type) :=
  rpadZipWith xs ys (fun a b => tuple a b).

End Align.

(** ** Reference definitions, in the specification's words *)

(** The specification's sequence rule, as a function on lists: [both] while
    both sides last, then [this_] or [that] for what remains of the longer. *)
Fixpoint sequence_rule {A B} (xs : list A) (ys : list B) : list (These A B) :=
  match xs, ys with
  | [], _ => that <$> ys
  | _, [] => this_ <$> xs
  | x :: xs', y :: ys' => both x y :: sequence_rule xs' ys'
  end.

(** [fc] is the alignment of [fa] and [fb] under [f]: as long as the longer
    of the two, [both] at the indices the two share, [this_] at the further
    indices of [fa] and [that] at the further indices of [fb]. *)
Definition aligned_by {A B C} (f : These A B -> C) (fa : list A) (fb : list B)
    (fc : list C) : Prop :=
  length fc = Nat.max (length fa) (length fb) /\
  (forall i, i < Nat.min (length fa) (length fb) ->
     exists a b, fa !! i = Some a /\ fb !! i = Some b /\
                 fc !! i = Some (f (both a b))) /\
  (forall i, length fb <= i < length fa ->
     exists a, fa !! i = Some a /\ fc !! i = Some (f (this_ a))) /\
  (forall i, length fa <= i < length fb ->
     exists b, fb !! i = Some b /\ fc !! i = Some (f (that b))).

(** The left-padded zip: the element at index [i] is [f] of the optional
    [xs[i]] (present when [i < length xs], absent otherwise) and [ys[i]]. *)
Definition lpad_rule {A B C} (f : option A -> B -> C) (xs : list A)
    (ys : list B) : list C :=
  imap (fun i y => f (xs !! i) y) ys.

(** The right-padded zip, its mirror image. *)
Definition rpad_rule {A B C} (f : A -> option B -> C) (xs : list A)
    (ys : list B) : list C :=
  imap (fun i x => f x (ys !! i)) xs.

(** The specification's rule for mappings: every key of the left input, with
    [both] when the right input has the key too and [this_] otherwise; then
    every key that only the right input has, with [that]. *)
Definition left_entry {A B C} (f : These A B -> C) (fb : Record B)
    (kv : string * A) : string * C :=
  (kv.1, f (match own fb kv.1 with
            | Some b => both kv.2 b
            | None => this_ kv.2
            end)).

Definition right_entry {A B C} (f : These A B -> C) (kv : string * B)
    : string * C :=
  (kv.1, f (that kv.2)).

Definition mapping_rule {A B C} (f : These A B -> C) (fa : Record A)
    (fb : Record B) : Record C :=
  (left_entry f fb <$> fa)
  ++ (right_entry f <$> filter (fun kv => has_own fa kv.1 = false) fb).

(** The identity laws of an [Align] instance at a container [fa]. *)
Definition identity_laws {T : Type -> Type} (F : Align.Align T) {A : Type}
    (B : Type) (fa : T A) : Prop :=
  Semialign.align (Align.semialign F) fa (Align.nil F : T B)
    = Ok (Semialign.map (Align.semialign F) fa this_) /\
  Semialign.align (Align.semialign F) (Align.nil F : T B) fa
    = Ok (Semialign.map (Align.semialign F) fa that).

(** How [salign] resolves a [These]: the left value alone, the right value
    alone, or the semigroup's combination of the two. *)
Definition resolve {A} (S : Semigroup A) (t : These A A) : A :=
  match t with
  | this_ a => a
  | that b => b
  | both a b => concat S a b
  end.

(** A computation that returns a value, rather than stopping at an error. *)
Definition returns {A} (m : result A) : Prop := exists a, m = Ok a.

(** Every call of [align] and [alignWith] of an instance returns. *)
Definition total_instance {T : Type -> Type} (F : Semialign.Semialign T)
    : Prop :=
  forall (A B C : Type) (fa : T A) (fb : T B) (f : These A B -> C),
    returns (Semialign.alignWith F fa fb f) /\
    returns (Semialign.align F fa fb).


(** ** The laws the two files state, and what they need *)

(** [na.toArray()] of the prelude's [NonEmptyArray]: the head, then the tail. *)
Definition toArray {A} (na : NonEmptyArray A) : list A := head na :: tail na.

(** The reassociation of nested [These] values that the header of
    [Semialign.ts] names [These.assoc], of type
    [These<A, These<B, C>> -> These<These<A, B>, C>]. *)
Definition These_assoc {A B C} (t : These A (These B C)) : These (These A B) C :=
  match t with
  | this_ a => this_ (this_ a)
  | that (this_ b) => this_ (that b)
  | that (that c) => that c
  | that (both b c) => both (that b) c
  | both a (this_ b) => this_ (both a b)
  | both a (that c) => both (this_ a) c
  | both a (both b c) => both (both a b) c
  end.

(** Law 1 of [Semialign.ts]: [F.align(fa, fa) = F.map(fa, a => both(a, a))]. *)
Definition law_self_align {T : Type -> Type} (F : Semialign.Semialign T)
    {A : Type} (fa : T A) : Prop :=
  Semialign.align F fa fa = Ok (Semialign.map F fa (fun a => both a a)).

(** Law 2: [F.align(F.map(fa, g), F.map(fb, h))
    = F.map(F.align(fa, fb), t => These.bimap(t, g, h))]. *)
Definition law_natural {T : Type -> Type} (F : Semialign.Semialign T)
    {A B A' B' : Type} (fa : T A) (fb : T B) (g : A -> A') (h : B -> B')
    : Prop :=
  Semialign.align F (Semialign.map F fa g) (Semialign.map F fb h) =
  (r <- Semialign.align F fa fb ;;
   Ok (Semialign.map F r (fun t => These_bimap t g h))).


(** Law 4, associativity up to [These.assoc]: aligning [fa] with [fb] and the
    result with [fc] is aligning [fa] with the alignment of [fb] and [fc],
    reassociated. *)
Definition law_assoc {T : Type -> Type} (F : Semialign.Semialign T)
    {A B C : Type} (fa : T A) (fb : T B) (fc : T C) : Prop :=
  (r <- Semialign.align F fa fb ;; Semialign.align F r fc) =
  (r <- Semialign.align F fb fc ;;
   s <- Semialign.align F fa r ;;
   Ok (Semialign.map F s These_assoc)).

(** Tactics that decide [ordinary_keys] and [plain_keys] on a literal
    record. *)
Ltac solve_ordinary_keys :=
  split; [apply (bool_decide_unpack _); vm_compute; exact I
         | split; reflexivity].

Ltac solve_plain_keys :=
  split; [solve_ordinary_keys | repeat constructor].
(** * Properties *)

(** ** The sequence rule *)

Section sequence_rule.
Context {A B : Type}.
Implicit Types (xs : list A) (ys : list B).

Lemma sequence_rule_length xs ys :
  length (sequence_rule xs ys) = Nat.max (length xs) (length ys).
Proof.
  revert ys; induction xs as [|x xs IH]; intros [|y ys]; simpl;
    rewrite ?length_fmap, ?IH; reflexivity.
Qed.

Lemma sequence_rule_both xs ys i a b :
  xs !! i = Some a -> ys !! i = Some b ->
  sequence_rule xs ys !! i = Some (both a b).
Proof.
  revert ys i; induction xs as [|x xs IH]; intros [|y ys] [|i]; simpl;
    try discriminate; [congruence | apply IH].
Qed.

Lemma sequence_rule_this xs ys i a :
  xs !! i = Some a -> ys !! i = None ->
  sequence_rule xs ys !! i = Some (this_ a).
Proof.
  revert ys i; induction xs as [|x xs IH]; intros [|y ys] [|i]; simpl;
    try discriminate; try apply IH.
  - congruence.
  - intros Hx _. change (xs !! i = Some a) in Hx.
    rewrite list_lookup_fmap, Hx. reflexivity.
Qed.

Lemma sequence_rule_that xs ys i b :
  xs !! i = None -> ys !! i = Some b ->
  sequence_rule xs ys !! i = Some (that b).
Proof.
  revert ys i; induction xs as [|x xs IH]; intros [|y ys] [|i]; simpl;
    try discriminate; try apply IH.
  - congruence.
  - intros _ Hy. change (ys !! i = Some b) in Hy.
    rewrite list_lookup_fmap, Hy. reflexivity.
Qed.

Lemma sequence_rule_nil_r xs :
  sequence_rule xs (@nil B) = this_ <$> xs.
Proof. destruct xs; reflexivity. Qed.

Lemma sequence_rule_nil_l ys :
  sequence_rule (@nil A) ys = that <$> ys.
Proof. reflexivity. Qed.
End sequence_rule.

(** ** Array loops that fill a target from left to right *)

Section fill.
Context {C : Type}.
Implicit Types (T fc : list C).

Lemma arr_get_Some {A} (a : list A) i x : a !! i = Some x -> arr_get a i = Ok x.
Proof. unfold arr_get. intros ->. reflexivity. Qed.

(** Writing the next element of [T] at the end of a prefix of [T]. *)
Lemma arr_set_take T i v :
  T !! i = Some v -> arr_set (take i T) i v = Ok (take (S i) T).
Proof.
  intros Hv. pose proof (lookup_lt_Some _ _ _ Hv) as Hlt.
  unfold arr_set. rewrite length_take_le by lia.
  destruct (decide (i < i)) as [?|_]; [lia|].
  destruct (decide (i = i)) as [_|?]; [|congruence].
  rewrite (take_S_r _ _ _ Hv). reflexivity.
Qed.

(** A loop whose every step extends the prefix of [T] by one element ends
    with the prefix of [T] that is [n] longer. *)
Lemma for_from_take T body n i :
  (forall j, i <= j < i + n -> body j (take j T) = Ok (take (S j) T)) ->
  for_from n i body (take i T) = Ok (take (i + n) T).
Proof.
  revert i; induction n as [|n IH]; intros i Hbody; simpl.
  - rewrite Nat.add_0_r. reflexivity.
  - rewrite Hbody by lia. simpl. rewrite IH.
    + f_equal. f_equal. lia.
    + intros j Hj. apply Hbody. lia.
Qed.

Lemma for_loop_take T body lo hi :
  lo <= hi ->
  (forall j, lo <= j < hi -> body j (take j T) = Ok (take (S j) T)) ->
  for_loop lo hi body (take lo T) = Ok (take hi T).
Proof.
  intros Hle Hbody. unfold for_loop. rewrite for_from_take.
  - f_equal. f_equal. lia.
  - intros j Hj. apply Hbody. lia.
Qed.
End fill.

(** ** [array.alignWith] computes the sequence rule *)

Section array_alignWith.
Context {A B C : Type}.
Implicit Types (fa : list A) (fb : list B) (f : These A B -> C).

Lemma array_alignWith_eq fa fb f :
  Semialign.array.alignWith fa fb f = Ok (f <$> sequence_rule fa fb).
Proof.
  set (T := f <$> sequence_rule fa fb).
  assert (HlenT : length T = Nat.max (length fa) (length fb)).
  { unfold T. rewrite length_fmap. apply sequence_rule_length. }
  unfold Semialign.array.alignWith. cbv zeta.
  change (@nil C) with (take 0 T).
  rewrite (for_loop_take T); [simpl| lia |].
  2:{ intros j Hj.
      destruct (lookup_lt_is_Some_2 fa j) as [a Ha]; [lia|].
      destruct (lookup_lt_is_Some_2 fb j) as [b Hb]; [lia|].
      rewrite (arr_get_Some _ _ _ Ha), (arr_get_Some _ _ _ Hb). simpl.
      apply arr_set_take. unfold T.
      rewrite list_lookup_fmap, (sequence_rule_both _ _ _ _ _ Ha Hb).
      reflexivity. }
  destruct (decide (length fb < length fa)) as [Hlt|Hge].
  - rewrite Nat.min_r by lia. rewrite (for_loop_take T); [| lia |].
    + rewrite take_ge by lia. reflexivity.
    + intros j Hj.
      destruct (lookup_lt_is_Some_2 fa j) as [a Ha]; [lia|].
      rewrite (arr_get_Some _ _ _ Ha). simpl.
      apply arr_set_take. unfold T.
      rewrite list_lookup_fmap, (sequence_rule_this _ _ _ _ Ha).
      * reflexivity.
      * apply lookup_ge_None_2. lia.
  - rewrite Nat.min_l by lia. rewrite (for_loop_take T); [| lia |].
    + rewrite take_ge by lia. reflexivity.
    + intros j Hj.
      destruct (lookup_lt_is_Some_2 fb j) as [b Hb]; [lia|].
      rewrite (arr_get_Some _ _ _ Hb). simpl.
      apply arr_set_take. unfold T.
      rewrite list_lookup_fmap, (sequence_rule_that fa fb j b).
      * reflexivity.
      * apply lookup_ge_None_2. lia.
      * exact Hb.
Qed.

End array_alignWith.

Lemma array_align_eq {A B} (fa : list A) (fb : list B) :
  Semialign.array.align fa fb = Ok (sequence_rule fa fb).
Proof.
  unfold Semialign.array.align. rewrite array_alignWith_eq.
  f_equal. apply list_fmap_id.
Qed.

(** ** The sequence instance *)

Lemma sequence_rule_aligned {A B C} (f : These A B -> C) (fa : list A)
    (fb : list B) :
  aligned_by f fa fb (f <$> sequence_rule fa fb).
Proof.
  unfold aligned_by. rewrite length_fmap, sequence_rule_length.
  split; [reflexivity|]. split; [|split].
  - intros i Hi.
    destruct (lookup_lt_is_Some_2 fa i) as [a Ha]; [lia|].
    destruct (lookup_lt_is_Some_2 fb i) as [b Hb]; [lia|].
    exists a, b. rewrite list_lookup_fmap, (sequence_rule_both _ _ _ _ _ Ha Hb).
    auto.
  - intros i Hi.
    destruct (lookup_lt_is_Some_2 fa i) as [a Ha]; [lia|].
    exists a. rewrite list_lookup_fmap, (sequence_rule_this fa fb i a); auto.
    apply lookup_ge_None_2. lia.
  - intros i Hi.
    destruct (lookup_lt_is_Some_2 fb i) as [b Hb]; [lia|].
    exists b. rewrite list_lookup_fmap, (sequence_rule_that fa fb i b); auto.
    apply lookup_ge_None_2. lia.
Qed.

(** C1. For all arrays [fa] and [fb], [array.alignWith fa fb f] (for any [f])
    and [array.align fa fb] return an array whose length is the larger of the
    two lengths; at every index below the smaller length its element is (the
    image under [f] of) [both fa[i] fb[i]]; at every further index it is
    [this_ fa[i]] when [fa] is the longer and [that fb[i]] when [fb] is the
    longer, each element at the index it had in its input. *)
Theorem array_align_shape {A B C} (fa : list A) (fb : list B)
    (f : These A B -> C) :
  (exists fc, Semialign.array.alignWith fa fb f = Ok fc /\
              aligned_by f fa fb fc) /\
  (exists fc, Semialign.array.align fa fb = Ok fc /\
              aligned_by identity fa fb fc).
Proof.
  split.
  - exists (f <$> sequence_rule fa fb). split.
    + apply array_alignWith_eq.
    + apply sequence_rule_aligned.
  - exists (identity <$> sequence_rule fa fb). split.
    + unfold Semialign.array.align. apply array_alignWith_eq.
    + apply sequence_rule_aligned.
Qed.

(** ** The non-empty sequence instance *)

(** C4. For all non-empty arrays [fa] and [fb], [nonEmptyArray.align fa fb]
    returns a non-empty array whose head is [both (head fa) (head fb)] and
    whose tail is what [array.align] returns on the two tails. *)
Theorem nonEmptyArray_align_head_tail {A B} (fa : NonEmptyArray A)
    (fb : NonEmptyArray B) :
  exists r t,
    Semialign.nonEmptyArray.align fa fb = Ok r /\
    Semialign.array.align (tail fa) (tail fb) = Ok t /\
    head r = both (head fa) (head fb) /\
    tail r = t.
Proof.
  exists (MkNonEmptyArray (both (head fa) (head fb))
            (sequence_rule (tail fa) (tail fb))),
         (sequence_rule (tail fa) (tail fb)).
  unfold Semialign.nonEmptyArray.align. rewrite array_align_eq. simpl. auto.
Qed.

(** ** [align] and [alignWith] *)

(** C3. In each of the four instances (optional value, sequence, non-empty
    sequence, string-keyed mapping), [align fa fb] equals
    [alignWith fa fb identity] for all inputs; this includes the non-empty
    sequence instance, whose [align] does not call its [alignWith]. *)
Theorem align_is_alignWith_identity :
  (forall A B (fa : option A) (fb : option B),
     Semialign.align Semialign.option_Semialign fa fb =
     Semialign.alignWith Semialign.option_Semialign fa fb identity) /\
  (forall A B (fa : list A) (fb : list B),
     Semialign.align Semialign.array_Semialign fa fb =
     Semialign.alignWith Semialign.array_Semialign fa fb identity) /\
  (forall A B (fa : NonEmptyArray A) (fb : NonEmptyArray B),
     Semialign.align Semialign.nonEmptyArray_Semialign fa fb =
     Semialign.alignWith Semialign.nonEmptyArray_Semialign fa fb identity) /\
  (forall (call : Calls) A B (fa : Record A) (fb : Record B),
     Semialign.align (Semialign.record_Semialign call) fa fb =
     Semialign.alignWith (Semialign.record_Semialign call) fa fb identity).
Proof.
  split; [|split; [|split]]; intros; simpl.
  - reflexivity.
  - reflexivity.
  - unfold Semialign.nonEmptyArray.align, Semialign.nonEmptyArray.alignWith,
      Semialign.array.align.
    reflexivity.
  - reflexivity.
Qed.

(** ** The derived combinators *)

(** C6. For every [Align] instance [F], semigroup [S] and inputs [fx], [fy],
    [salign F S fx fy] equals [alignWith fx fy t] where [t] sends [this_ a] to
    [a], [that b] to [b] and [both a b] to [S.concat a b]; with the sequence
    instance and the sum of numbers, [salign [1,2,3] [4,5]] is [[5,7,3]]. *)
Theorem salign_resolves :
  (forall (T : Type -> Type) (A : Type) (F : Align.Align T) (S : Semigroup A)
          (fx fy : T A),
     Align.salign F S fx fy =
     Semialign.alignWith (Align.semialign F) fx fy (resolve S)) /\
  Align.salign Align.array_Align semigroupSum [1; 2; 3]%Z [4; 5]%Z
    = Ok [5; 7; 3]%Z.
Proof.
  split.
  - intros T A F S fx fy. reflexivity.
  - reflexivity.
Qed.

Lemma array_padZipWith_eq {A B C} (xs : list A) (ys : list B)
    (f : option A -> option B -> C) :
  Align.padZipWith Align.array_Align xs ys f =
  Ok ((fun ab => These_fold (These_bimap ab some some)
         (fun a => f a none) (fun b => f none b) (fun a b => f a b))
      <$> sequence_rule xs ys).
Proof. unfold Align.padZipWith. simpl. apply array_alignWith_eq. Qed.

Section lpadZipWith.
Context {A B C : Type}.
Implicit Types (xs : list A) (ys : list B).

Lemma catOptions_this xs (g : These A B -> option C) :
  (forall a, g (this_ a) = None) ->
  catOptions (g <$> (this_ <$> xs)) = [].
Proof.
  intros Hg. induction xs as [|x xs IH]; simpl; [reflexivity|].
  rewrite Hg. exact IH.
Qed.

Lemma catOptions_that ys (g : These A B -> option C) (h : B -> C) :
  (forall b, g (that b) = Some (h b)) ->
  catOptions (g <$> (that <$> ys)) = h <$> ys.
Proof.
  intros Hg. induction ys as [|y ys IH]; simpl; [reflexivity|].
  rewrite Hg. f_equal. exact IH.
Qed.

Lemma lpadZipWith_eq xs ys (f : option A -> B -> C) :
  Align.lpadZipWith xs ys f = Ok (lpad_rule f xs ys).
Proof.
  unfold Align.lpadZipWith. rewrite array_padZipWith_eq. simpl. f_equal.
  unfold lpad_rule. revert ys.
  induction xs as [|x xs IH]; intros [|y ys].
  - reflexivity.
  - rewrite sequence_rule_nil_l.
    rewrite (catOptions_that _ _ (f None)) by reflexivity.
    rewrite <- imap_const. apply imap_ext. intros i b _. reflexivity.
  - rewrite sequence_rule_nil_r.
    rewrite catOptions_this by reflexivity. reflexivity.
  - rewrite imap_cons. simpl. f_equal. apply IH.
Qed.
End lpadZipWith.

Lemma rpadZipWith_eq {A B C} (xs : list A) (ys : list B)
    (f : A -> option B -> C) :
  Align.rpadZipWith xs ys f = Ok (rpad_rule f xs ys).
Proof. unfold Align.rpadZipWith. rewrite lpadZipWith_eq. reflexivity. Qed.

(** C7. For all arrays [xs], [ys] and every [f], [lpadZipWith xs ys f] returns
    an array exactly as long as [ys]; its element at index [i] is
    [f (some xs[i]) ys[i]] when [i < length xs] and [f none ys[i]] otherwise.
    The elements of [xs] from index [length ys] on contribute nothing. *)
Theorem lpadZipWith_shape {A B C} (xs : list A) (ys : list B)
    (f : option A -> B -> C) :
  exists r,
    Align.lpadZipWith xs ys f = Ok r /\
    length r = length ys /\
    (forall i x y, xs !! i = Some x -> ys !! i = Some y ->
       r !! i = Some (f (some x) y)) /\
    (forall i y, length xs <= i -> ys !! i = Some y ->
       r !! i = Some (f none y)) /\
    Align.lpadZipWith (take (length ys) xs) ys f = Ok r.
Proof.
  exists (lpad_rule f xs ys). split; [apply lpadZipWith_eq|].
  unfold lpad_rule. split; [apply length_imap|]. split; [|split].
  - intros i x y Hx Hy. rewrite list_lookup_imap, Hx, Hy. reflexivity.
  - intros i y Hi Hy.
    rewrite list_lookup_imap, Hy, (lookup_ge_None_2 xs i Hi). reflexivity.
  - rewrite lpadZipWith_eq. f_equal. unfold lpad_rule.
    apply imap_ext. intros i y Hy. simpl.
    rewrite lookup_take_lt; [reflexivity|].
    apply lookup_lt_Some in Hy. exact Hy.
Qed.

(** C8. For all arrays [xs], [ys] and every [f], [rpadZipWith xs ys f] is
    [lpadZipWith] with the two sides exchanged: it returns an array exactly as
    long as [xs], whose element at index [i] is [f xs[i] (some ys[i])] when
    [i < length ys] and [f xs[i] none] otherwise. *)
Theorem rpadZipWith_shape {A B C} (xs : list A) (ys : list B)
    (f : A -> option B -> C) :
  exists r,
    Align.rpadZipWith xs ys f = Ok r /\
    Align.lpadZipWith ys xs (fun mb a => f a mb) = Ok r /\
    length r = length xs /\
    (forall i x y, xs !! i = Some x -> ys !! i = Some y ->
       r !! i = Some (f x (some y))) /\
    (forall i x, xs !! i = Some x -> length ys <= i ->
       r !! i = Some (f x none)).
Proof.
  exists (rpad_rule f xs ys). split; [apply rpadZipWith_eq|].
  split; [rewrite lpadZipWith_eq; reflexivity|].
  unfold rpad_rule. split; [apply length_imap|]. split.
  - intros i x y Hx Hy. rewrite list_lookup_imap, Hx, Hy. reflexivity.
  - intros i x Hx Hi.
    rewrite list_lookup_imap, Hx, (lookup_ge_None_2 ys i Hi). reflexivity.
Qed.

(** C10. In the optional-value instance, [padZipWith fa fb f] and
    [padZip fa fb] return the absent value exactly when [fa] and [fb] are both
    absent.  The combining function is never applied to two absent optionals
    (changing its value there changes no result), so [padZip none none] is
    [none] and not [some (none, none)]. *)
Theorem option_padZip_none {A B C} (fa : option A) (fb : option B)
    (f : option A -> option B -> C) (c : C) :
  (Align.padZipWith Align.option_Align fa fb f = Ok none <->
     fa = none /\ fb = none) /\
  (Align.padZip Align.option_Align fa fb = Ok none <->
     fa = none /\ fb = none) /\
  returns (Align.padZipWith Align.option_Align fa fb f) /\
  Align.padZip Align.option_Align (@none A) (@none B) = Ok none /\
  Align.padZipWith Align.option_Align fa fb f =
    Align.padZipWith Align.option_Align fa fb
      (fun ma mb => match ma, mb with
                    | None, None => c
                    | _, _ => f ma mb
                    end).
Proof.
  unfold returns, none.
  destruct fa as [a|], fb as [b|]; cbn;
    (split; [|split; [|split; [|split]]]);
    try reflexivity; try (eexists; reflexivity);
    try (split; [intros H; discriminate H | intros [H1 H2]; discriminate]).
  - split; auto.
  - split; auto.
Qed.

(** ** Records *)

Section records.
Context {A : Type}.
Implicit Types (o : list (string * A)) (k : string).

Lemma own_None o k : own o k = None <-> k ∉ Object_keys o.
Proof.
  unfold Object_keys. induction o as [|[k' a] o IH]; simpl.
  - split; [intros _; apply not_elem_of_nil | reflexivity].
  - rewrite not_elem_of_cons. destruct (decide (k = k')) as [->|Hne].
    + split; [discriminate | intros [H _]; congruence].
    + rewrite IH. tauto.
Qed.

Lemma own_elem_of o k : k ∈ Object_keys o -> exists a, own o k = Some a.
Proof.
  intros Hk. destruct (own o k) as [a|] eqn:E; [eauto|].
  apply own_None in E. contradiction.
Qed.

Lemma own_Some_elem_of o k a : own o k = Some a -> k ∈ Object_keys o.
Proof.
  intros E. destruct (decide (k ∈ Object_keys o)) as [?|Hn]; [assumption|].
  apply own_None in Hn. congruence.
Qed.

Lemma has_own_false o k : has_own o k = false <-> k ∉ Object_keys o.
Proof.
  rewrite <- own_None. unfold has_own.
  destruct (own o k); split; congruence.
Qed.

Lemma has_own_true o k : has_own o k = true <-> k ∈ Object_keys o.
Proof.
  destruct (has_own o k) eqn:E.
  - split; [intros _|reflexivity].
    destruct (decide (k ∈ Object_keys o)) as [?|Hn]; [assumption|].
    apply has_own_false in Hn. congruence.
  - apply has_own_false in E. split; [discriminate | contradiction].
Qed.

Lemma own_app o1 o2 k :
  own (o1 ++ o2) k =
  match own o1 k with Some a => Some a | None => own o2 k end.
Proof.
  induction o1 as [|[k' a] o1 IH]; simpl; [reflexivity|].
  destruct (decide (k = k')); [reflexivity | exact IH].
Qed.

Lemma own_fmap {B} (g : string -> A -> B) o k :
  own ((fun kv => (kv.1, g kv.1 kv.2)) <$> o) k = g k <$> own o k.
Proof.
  induction o as [|[k' a] o IH]; simpl; [reflexivity|].
  destruct (decide (k = k')) as [->|]; [reflexivity | exact IH].
Qed.

Lemma keys_fmap {B} (g : string * A -> B) o :
  Object_keys ((fun kv => (kv.1, g kv)) <$> o) = Object_keys o.
Proof.
  unfold Object_keys. rewrite <- list_fmap_compose.
  apply list_fmap_ext. intros i kv _. reflexivity.
Qed.

Lemma keys_filter (P : string -> Prop) `{!forall k, Decision (P k)} o :
  Object_keys (filter (fun kv => P kv.1) o) = filter P (Object_keys o).
Proof.
  unfold Object_keys. induction o as [|[k' a] o IH]; [reflexivity|].
  rewrite fmap_cons. cbn [fst]. destruct (decide (P k')) as [Hk'|Hk'].
  - rewrite (filter_cons_True P) by exact Hk'.
    rewrite (filter_cons_True (fun kv : string * A => P kv.1))
      by exact Hk'.
    rewrite fmap_cons. cbn [fst]. f_equal. exact IH.
  - rewrite (filter_cons_False P) by exact Hk'.
    rewrite (filter_cons_False (fun kv : string * A => P kv.1))
      by exact Hk'.
    exact IH.
Qed.

Lemma own_filter (P : string -> Prop) `{!forall k, Decision (P k)} o k :
  own (filter (fun kv => P kv.1) o) k =
  if decide (P k) then own o k else None.
Proof.
  induction o as [|[k' a] o IH].
  - simpl. destruct (decide (P k)); reflexivity.
  - destruct (decide (P k')) as [Hk'|Hk'].
    + rewrite filter_cons_True by exact Hk'. simpl.
      destruct (decide (k = k')) as [->|Hne]; [|exact IH].
      destruct (decide (P k')); [reflexivity | contradiction].
    + rewrite filter_cons_False by exact Hk'. rewrite IH. simpl.
      destruct (decide (k = k')) as [->|Hne]; [|reflexivity].
      destruct (decide (P k')); [contradiction | reflexivity].
Qed.

Lemma own_app_r o1 o2 k a :
  NoDup (Object_keys (o1 ++ (k, a) :: o2)) ->
  own (o1 ++ (k, a) :: o2) k = Some a.
Proof.
  unfold Object_keys. rewrite fmap_app, fmap_cons. simpl.
  intros Hnd. apply NoDup_app in Hnd as (_ & Hdisj & _).
  rewrite own_app.
  destruct (own o1 k) as [a'|] eqn:E.
  - apply own_Some_elem_of in E. exfalso.
    apply (Hdisj k E). left.
  - simpl. destruct (decide (k = k)); [reflexivity | congruence].
Qed.

Lemma own_of_elem o k a :
  NoDup (Object_keys o) -> (k, a) ∈ o -> own o k = Some a.
Proof.
  intros Hnd Hin. apply list_elem_of_split in Hin as (o1 & o2 & ->).
  apply own_app_r. exact Hnd.
Qed.

(** *** Assignment to a property *)

Lemma own_overwrite_ne o k v k' :
  k' <> k -> own (overwrite o k v) k' = own o k'.
Proof.
  intros Hne. induction o as [|[k0 a] o IH]; simpl; [reflexivity|].
  destruct (decide (k = k0)) as [->|Hk]; simpl.
  - destruct (decide (k' = k0)); [contradiction | reflexivity].
  - destruct (decide (k' = k0)); [reflexivity | exact IH].
Qed.

Lemma own_overwrite_eq o k v :
  has_own o k = true -> own (overwrite o k v) k = Some v.
Proof.
  unfold has_own. induction o as [|[k0 a] o IH]; simpl; [discriminate|].
  destruct (decide (k = k0)) as [->|Hk]; simpl.
  - destruct (decide (k0 = k0)); [reflexivity | congruence].
  - destruct (decide (k = k0)); [contradiction | exact IH].
Qed.

Lemma keys_overwrite o k v : Object_keys (overwrite o k v) = Object_keys o.
Proof.
  unfold Object_keys. induction o as [|[k0 a] o IH]; simpl; [reflexivity|].
  destruct (decide (k = k0)); simpl; [reflexivity|]. f_equal. exact IH.
Qed.

Lemma insert_index_perm o n k v : insert_index o n k v ≡ₚ (k, v) :: o.
Proof.
  induction o as [|[k0 a] o IH]; simpl; [reflexivity|].
  destruct (array_index k0) as [n0|]; [|reflexivity].
  destruct (n0 <=? n)%N; [|reflexivity].
  rewrite IH. apply Permutation_swap.
Qed.

Lemma own_insert_index_ne o n k v k' :
  k' <> k -> own (insert_index o n k v) k' = own o k'.
Proof.
  intros Hne. induction o as [|[k0 a] o IH]; simpl.
  - destruct (decide (k' = k)); [contradiction | reflexivity].
  - destruct (array_index k0) as [n0|]; [destruct (n0 <=? n)%N|]; simpl;
      destruct (decide (k' = k0)); try reflexivity; try exact IH;
      destruct (decide (k' = k)); try contradiction; reflexivity.
Qed.

Lemma own_insert_index_eq o n k v :
  own o k = None -> own (insert_index o n k v) k = Some v.
Proof.
  induction o as [|[k0 a] o IH]; simpl.
  - intros _. destruct (decide (k = k)); [reflexivity | congruence].
  - destruct (decide (k = k0)) as [->|Hk]; [discriminate|]. intros Ho.
    destruct (array_index k0) as [n0|]; [destruct (n0 <=? n)%N|]; simpl.
    + destruct (decide (k = k0)); [contradiction | apply IH; exact Ho].
    + destruct (decide (k = k)); [reflexivity | congruence].
    + destruct (decide (k = k)); [reflexivity | congruence].
Qed.

Lemma prop_set_new o k v :
  own o k = None -> k <> "__proto__" -> array_index k = None ->
  prop_set o k v = o ++ [(k, v)].
Proof.
  intros Ho Hp Hi. unfold prop_set, has_own. rewrite Ho, Hi.
  destruct (decide (k = "__proto__")); [contradiction | reflexivity].
Qed.


Lemma own_prop_set_ne o k v k' :
  k' <> k -> own (prop_set o k v) k' = own o k'.
Proof.
  intros Hne. unfold prop_set.
  destruct (has_own o k); [apply own_overwrite_ne; exact Hne|].
  destruct (decide (k = "__proto__")) as [Hp|Hp]; [reflexivity|].
  destruct (array_index k) as [n|].
  - apply own_insert_index_ne. exact Hne.
  - rewrite own_app. destruct (own o k'); [reflexivity|]. simpl.
    destruct (decide (k' = k)); [contradiction | reflexivity].
Qed.

Lemma own_prop_set_eq o k v :
  k <> "__proto__" -> own (prop_set o k v) k = Some v.
Proof.
  intros Hp. unfold prop_set.
  destruct (has_own o k) eqn:Eh; [apply own_overwrite_eq; exact Eh|].
  destruct (decide (k = "__proto__")) as [Hp'|Hp']; [contradiction|].
  assert (Ho : own o k = None).
  { apply own_None. apply has_own_false. exact Eh. }
  destruct (array_index k) as [n|].
  - apply own_insert_index_eq. exact Ho.
  - rewrite own_app, Ho. simpl.
    destruct (decide (k = k)); [reflexivity | congruence].
Qed.

Lemma NoDup_prop_set o k v :
  NoDup (Object_keys o) -> NoDup (Object_keys (prop_set o k v)).
Proof.
  intros Hnd. unfold prop_set.
  destruct (has_own o k) eqn:Eh; [rewrite keys_overwrite; exact Hnd|].
  destruct (decide (k = "__proto__")) as [Hp|Hp]; [exact Hnd|].
  apply has_own_false in Eh.
  destruct (array_index k) as [n|].
  - unfold Object_keys. rewrite insert_index_perm. rewrite fmap_cons.
    apply NoDup_cons. split; assumption.
  - unfold Object_keys. rewrite fmap_app. apply NoDup_app.
    split; [exact Hnd|]. split; [|apply NoDup_singleton].
    intros x Hx Hin. apply list_elem_of_singleton in Hin.
    simpl in Hin. subst x. contradiction.
Qed.

End records.

(** *** Ordinary and plain keys *)

Section keys.
Context {A : Type}.
Implicit Types (o : list (string * A)) (k : string).

Lemma prop_get_Some o k x : own o k = Some x -> prop_get o k = Ok x.
Proof. unfold prop_get. intros ->. reflexivity. Qed.

Lemma has_own_Some o k x : own o k = Some x -> has_own o k = true.
Proof. unfold has_own. intros ->. reflexivity. Qed.

Lemma has_own_None o k : own o k = None -> has_own o k = false.
Proof. unfold has_own. intros ->. reflexivity. Qed.

Lemma hasOwnProperty_unshadowed (call : Calls) o k :
  own o "hasOwnProperty" = None -> hasOwnProperty call o k = Ok (has_own o k).
Proof. unfold hasOwnProperty. intros ->. reflexivity. Qed.

Lemma not_elem_of_prefix (l1 l2 : list (string * A)) k x :
  NoDup (Object_keys (l1 ++ (k, x) :: l2)) -> k ∉ Object_keys l1.
Proof.
  unfold Object_keys. rewrite fmap_app, fmap_cons.
  intros Hnd Hin. apply NoDup_app in Hnd as (_ & Hdisj & _).
  apply (Hdisj k Hin). left.
Qed.

Lemma not_proto_elem_of o k :
  own o "__proto__" = None -> k ∈ Object_keys o -> k <> "__proto__".
Proof. intros Ho Hk ->. apply own_None in Ho. contradiction. Qed.

Lemma plain_keys_elem_of o k :
  plain_keys o -> k ∈ Object_keys o ->
  k <> "__proto__" /\ array_index k = None.
Proof.
  intros [(_ & _ & Hp) Hi] Hk. split.
  - eapply not_proto_elem_of; eassumption.
  - unfold no_index_keys in Hi. rewrite Forall_forall in Hi. apply Hi.
    exact Hk.
Qed.

Lemma plain_keys_nil : plain_keys (@nil (string * A)).
Proof.
  repeat split; try reflexivity; [apply NoDup_nil_2 | apply Forall_nil_2].
Qed.
End keys.

(** ** [recordAlignWith] on plain keys computes the mapping rule *)

Section recordAlignWith.
Context (call : Calls) {A B C : Type} (f : These A B -> C).
Implicit Types (fa : list (string * A)) (fb : list (string * B)).
Implicit Types (r : list (string * C)) (k : string).

(** The first loop, over the keys of [fa]: the entries [l1] have been
    processed and [l2] are still to come. *)
Lemma first_loop fa fb (l1 l2 : list (string * A)) :
  plain_keys fa -> own fb "hasOwnProperty" = None -> fa = l1 ++ l2 ->
  for_of (Object_keys l2) (fun key r =>
      h <- hasOwnProperty call fb key ;;
      if h then
        a <- prop_get fa key ;;
        b <- prop_get fb key ;;
        Ok (prop_set r key (f (both a b)))
      else
        a <- prop_get fa key ;;
        Ok (prop_set r key (f (this_ a))))
    (left_entry f fb <$> l1) = Ok (left_entry f fb <$> fa).
Proof.
  intros Hplain Hfb. pose proof Hplain as [(Hnd & _ & _) _].
  revert l1. induction l2 as [|[k a] l2 IH]; intros l1 Hfa.
  - rewrite app_nil_r in Hfa. subst fa. reflexivity.
  - assert (Hown : own fa k = Some a).
    { subst fa. apply own_app_r. exact Hnd. }
    destruct (plain_keys_elem_of fa k Hplain) as [Hp Hi].
    { eapply own_Some_elem_of. exact Hown. }
    assert (Hnew : forall v, prop_set (left_entry f fb <$> l1) k v
                             = (left_entry f fb <$> l1) ++ [(k, v)]).
    { intros v. apply prop_set_new; [|exact Hp|exact Hi]. apply own_None.
      unfold left_entry. rewrite keys_fmap.
      subst fa. eapply not_elem_of_prefix. exact Hnd. }
    specialize (IH (l1 ++ [(k, a)])).
    rewrite <- app_assoc in IH. specialize (IH Hfa).
    rewrite fmap_app in IH. cbn [fmap list_fmap] in IH.
    unfold left_entry at 2 in IH. cbn [fst snd] in IH.
    change (Object_keys ((k, a) :: l2)) with (k :: Object_keys l2).
    cbn [for_of]. rewrite (hasOwnProperty_unshadowed call fb k Hfb).
    cbn [bind]. rewrite (prop_get_Some _ _ _ Hown).
    destruct (own fb k) as [b|] eqn:Efb.
    + rewrite (has_own_Some _ _ _ Efb), (prop_get_Some _ _ _ Efb).
      cbn [bind]. rewrite Hnew. exact IH.
    + rewrite (has_own_None _ _ Efb). cbn [bind].
      rewrite Hnew. exact IH.
Qed.

(** The second loop, over the keys of [fb], started from a record [r1] that
    has the keys of [fa]. *)
Lemma second_loop fa fb r1 (l1 l2 : list (string * B)) :
  plain_keys fb -> own fa "hasOwnProperty" = None -> fb = l1 ++ l2 ->
  Object_keys r1 = Object_keys fa ->
  for_of (Object_keys l2) (fun key r =>
      h <- hasOwnProperty call fa key ;;
      if negb h then
        b <- prop_get fb key ;;
        Ok (prop_set r key (f (that b)))
      else Ok r)
    (r1 ++ (right_entry f
              <$> filter (fun kv => has_own fa kv.1 = false) l1))
  = Ok (r1 ++ (right_entry f
                 <$> filter (fun kv => has_own fa kv.1 = false) fb)).
Proof.
  intros Hplain Hfa. pose proof Hplain as [(Hnd & _ & _) _].
  revert l1. induction l2 as [|[k b] l2 IH]; intros l1 Hfb Hr1.
  - rewrite app_nil_r in Hfb. subst fb. reflexivity.
  - assert (Hown : own fb k = Some b).
    { subst fb. apply own_app_r. exact Hnd. }
    destruct (plain_keys_elem_of fb k Hplain) as [Hp Hi].
    { eapply own_Some_elem_of. exact Hown. }
    specialize (IH (l1 ++ [(k, b)])).
    rewrite <- app_assoc in IH. specialize (IH Hfb Hr1).
    rewrite filter_app, fmap_app in IH.
    change (Object_keys ((k, b) :: l2)) with (k :: Object_keys l2).
    cbn [for_of]. rewrite (hasOwnProperty_unshadowed call fa k Hfa).
    cbn [bind].
    destruct (has_own fa k) eqn:Efa; cbn [negb bind].
    + rewrite filter_cons_False, filter_nil in IH
        by (cbn [fst]; congruence).
      rewrite fmap_nil, app_nil_r in IH. exact IH.
    + rewrite (prop_get_Some _ _ _ Hown). cbn [bind].
      rewrite filter_cons_True, filter_nil in IH by exact Efa.
      rewrite prop_set_new; [|  |exact Hp|exact Hi].
      * rewrite <- app_assoc. exact IH.
      * apply own_None. unfold Object_keys. rewrite fmap_app.
        rewrite not_elem_of_app. split.
        -- fold (Object_keys r1). rewrite Hr1.
           apply has_own_false. exact Efa.
        -- intros Hin. apply list_elem_of_fmap in Hin as ([k' c] & Hk & Hin).
           apply list_elem_of_fmap in Hin as ([k'' b'] & Hkb & Hin).
           apply list_elem_of_filter in Hin as [_ Hin].
           unfold right_entry in Hkb. simpl in Hk, Hkb.
           assert (k'' = k) by congruence. subst k''.
           subst fb. eapply not_elem_of_prefix; [exact Hnd|].
           unfold Object_keys. apply list_elem_of_fmap.
           exists (k, b'). split; [reflexivity | exact Hin].
Qed.

Lemma recordAlignWith_eq (fa : Record A) (fb : Record B) :
  plain_keys fa -> plain_keys fb ->
  Semialign.recordAlignWith call fa fb f = Ok (mapping_rule f fa fb).
Proof.
  unfold Semialign.recordAlignWith, mapping_rule, Record in *.
  intros Ha Hb. cbv zeta.
  change (@nil (string * C)) with (left_entry f fb <$> @nil (string * A)).
  assert (Hsa : own fa "hasOwnProperty" = None) by apply Ha.
  assert (Hsb : own fb "hasOwnProperty" = None) by apply Hb.
  pose proof (first_loop fa fb [] fa Ha Hsb eq_refl) as H1.
  pose proof (second_loop fa fb (left_entry f fb <$> fa) [] fb Hb Hsa eq_refl)
    as H2.
  rewrite filter_nil, fmap_nil, app_nil_r in H2.
  unfold Record in H1, H2. rewrite H1. cbn [bind]. apply H2.
  unfold left_entry. apply keys_fmap.
Qed.
End recordAlignWith.

Section mapping_rule.
Context {A B C : Type} (f : These A B -> C).
Implicit Types (fa : list (string * A)) (fb : list (string * B)) (k : string).

Lemma mapping_rule_keys fa fb :
  Object_keys (mapping_rule f fa fb) =
  Object_keys fa
    ++ filter (fun k => has_own fa k = false) (Object_keys fb).
Proof.
  unfold mapping_rule, Record.
  unfold Object_keys at 1. rewrite fmap_app.
  fold (Object_keys (left_entry f fb <$> fa)).
  fold (Object_keys
          (right_entry f
             <$> filter (fun kv => has_own fa kv.1 = false) fb)).
  unfold left_entry, right_entry. rewrite !keys_fmap. f_equal.
  pose proof (keys_filter (fun k => has_own fa k = false) fb) as Hk.
  exact Hk.
Qed.

Lemma mapping_rule_elem_of fa fb k :
  k ∈ Object_keys (mapping_rule f fa fb) <->
  k ∈ Object_keys fa \/ k ∈ Object_keys fb.
Proof.
  rewrite mapping_rule_keys, elem_of_app, list_elem_of_filter.
  rewrite has_own_false.
  destruct (decide (k ∈ Object_keys fa)); tauto.
Qed.

Lemma mapping_rule_wf fa fb :
  wf_record fa -> wf_record fb -> wf_record (mapping_rule f fa fb).
Proof.
  unfold wf_record. intros Ha Hb. rewrite mapping_rule_keys.
  apply NoDup_app. split; [exact Ha|]. split.
  - intros k Hk Hin. apply list_elem_of_filter in Hin as [Hno _].
    apply has_own_false in Hno. contradiction.
  - apply NoDup_filter. exact Hb.
Qed.

Lemma mapping_rule_own fa fb k :
  own (mapping_rule f fa fb) k =
  match own fa k, own fb k with
  | Some a, Some b => Some (f (both a b))
  | Some a, None => Some (f (this_ a))
  | None, Some b => Some (f (that b))
  | None, None => None
  end.
Proof.
  unfold mapping_rule, Record. rewrite own_app.
  unfold left_entry, right_entry.
  rewrite (own_fmap (fun k a => f match own fb k with
                                  | Some b => both a b
                                  | None => this_ a
                                  end)).
  rewrite (own_fmap (fun _ b => f (that b))).
  pose proof (own_filter (fun k => has_own fa k = false) fb k) as Hf.
  cbv beta in Hf. rewrite Hf. clear Hf.
  unfold has_own.
  destruct (own fa k) as [a|]; simpl.
  - destruct (own fb k); reflexivity.
  - destruct (own fb k); reflexivity.
Qed.

Lemma mapping_rule_plain fa fb :
  plain_keys fa -> plain_keys fb -> plain_keys (mapping_rule f fa fb).
Proof.
  intros [(Ha & Hha & Hpa) Hia] [(Hb & Hhb & Hpb) Hib].
  split; [split; [|split]|].
  - apply mapping_rule_wf; assumption.
  - rewrite mapping_rule_own, Hha, Hhb. reflexivity.
  - rewrite mapping_rule_own, Hpa, Hpb. reflexivity.
  - unfold no_index_keys in *. rewrite mapping_rule_keys.
    apply Forall_app. split; [exact Hia|].
    apply Forall_forall. intros k Hk.
    apply list_elem_of_filter in Hk as [_ Hk].
    rewrite Forall_forall in Hib. apply Hib. exact Hk.
Qed.
End mapping_rule.

(** ** [recordAlignWith] on ordinary keys, array indices included *)

(** An invariant of the state and of the elements done so far holds at the end
    of a loop each of whose steps returns and keeps it. *)
Lemma for_of_invariant {X St} (I : list X -> St -> Prop) (xs : list X)
    (body : X -> St -> result St) (s : St) :
  I [] s ->
  (forall done x s0, I done s0 -> x ∈ xs ->
     exists s1, body x s0 = Ok s1 /\ I (done ++ [x]) s1) ->
  exists s', for_of xs body s = Ok s' /\ I xs s'.
Proof.
  intros H0 Hstep.
  assert (Hgen : forall rest done s0,
    I done s0 -> (forall x, x ∈ rest -> x ∈ xs) ->
    exists s', for_of rest body s0 = Ok s' /\ I (done ++ rest) s').
  { induction rest as [|x rest IH]; intros done s0 Hi Hsub; simpl.
    - exists s0. rewrite app_nil_r. auto.
    - destruct (Hstep done x s0 Hi) as (s1 & Hb & Hi1); [apply Hsub; left|].
      rewrite Hb. simpl.
      destruct (IH (done ++ [x]) s1 Hi1) as (s' & Hs' & Hi').
      { intros y Hy. apply Hsub. right. exact Hy. }
      exists s'. rewrite <- app_assoc in Hi'. auto. }
  apply (Hgen xs [] s H0). auto.
Qed.

Section recordAlignWith_own.
Context (call : Calls) {A B C : Type} (f : These A B -> C).
Implicit Types (fa : list (string * A)) (fb : list (string * B)).

Lemma recordAlignWith_own (fa : Record A) (fb : Record B) :
  ordinary_keys fa -> ordinary_keys fb ->
  exists r,
    Semialign.recordAlignWith call fa fb f = Ok r /\
    wf_record r /\
    forall k, own r k =
              match own fa k, own fb k with
              | Some a, Some b => Some (f (both a b))
              | Some a, None => Some (f (this_ a))
              | None, Some b => Some (f (that b))
              | None, None => None
              end.
Proof.
  intros (Hwa & Hha & Hpa) (Hwb & Hhb & Hpb).
  unfold Semialign.recordAlignWith, Record in *. cbv zeta.
  set (lft := fun k a => f match own fb k with
                            | Some b => both a b
                            | None => this_ a
                            end).
  destruct (for_of_invariant
    (fun done (r : list (string * C)) =>
       wf_record r /\
       forall k, own r k =
                 if decide (k ∈ done) then lft k <$> own fa k else None)
    (Object_keys fa)
    (fun key r =>
       h <- hasOwnProperty call fb key ;;
       if h then
         a <- prop_get fa key ;;
         b <- prop_get fb key ;;
         Ok (prop_set r key (f (both a b)))
       else
         a <- prop_get fa key ;;
         Ok (prop_set r key (f (this_ a))))
    []) as (r1 & Hr1 & Hw1 & Ho1).
  { split; [apply NoDup_nil_2|]. intros k.
    destruct (decide (k ∈ [])) as [Hk|_]; [|reflexivity].
    apply elem_of_nil in Hk. contradiction. }
  { intros done x r (Hw & Ho) Hx.
    destruct (own_elem_of fa x Hx) as [a Ha].
    assert (Hp : x <> "__proto__") by exact (not_proto_elem_of fa x Hpa Hx).
    rewrite (hasOwnProperty_unshadowed call fb x Hhb). cbn [bind].
    rewrite (prop_get_Some _ _ _ Ha). cbn [bind].
    assert (Hafter : forall v, v = lft x a ->
      wf_record (prop_set r x v) /\
      forall k, own (prop_set r x v) k =
                if decide (k ∈ done ++ [x]) then lft k <$> own fa k
                else None).
    { intros v ->. split; [apply NoDup_prop_set; exact Hw|]. intros k.
      destruct (decide (k = x)) as [->|Hne].
      - rewrite own_prop_set_eq by exact Hp. rewrite Ha.
        destruct (decide (x ∈ done ++ [x])) as [_|Hn]; [reflexivity|].
        exfalso. apply Hn. apply elem_of_app. right. left.
      - rewrite own_prop_set_ne by exact Hne. rewrite Ho.
        destruct (decide (k ∈ done)) as [Hd|Hd];
          destruct (decide (k ∈ done ++ [x])) as [Hd'|Hd'];
          try reflexivity; exfalso.
        + apply Hd'. apply elem_of_app. left. exact Hd.
        + apply elem_of_app in Hd' as [?|Hd']; [contradiction|].
          apply list_elem_of_singleton in Hd'. contradiction. }
    destruct (own fb x) as [b|] eqn:Eb.
    - rewrite (has_own_Some _ _ _ Eb), (prop_get_Some _ _ _ Eb). cbn [bind].
      eexists. split; [reflexivity|]. apply Hafter.
      unfold lft. rewrite Eb. reflexivity.
    - rewrite (has_own_None _ _ Eb). cbn [bind].
      eexists. split; [reflexivity|]. apply Hafter.
      unfold lft. rewrite Eb. reflexivity. }
  unfold Record in Hr1. rewrite Hr1. cbn [bind].
  destruct (for_of_invariant
    (fun done (r : list (string * C)) =>
       wf_record r /\
       forall k, own r k =
                 match own fa k with
                 | Some a => Some (lft k a)
                 | None =>
                     if decide (k ∈ done)
                     then (fun b => f (that b)) <$> own fb k else None
                 end)
    (Object_keys fb)
    (fun key r =>
       h <- hasOwnProperty call fa key ;;
       if negb h then
         b <- prop_get fb key ;;
         Ok (prop_set r key (f (that b)))
       else Ok r)
    r1) as (r2 & Hr2 & Hw2 & Ho2).
  { split; [exact Hw1|]. intros k. rewrite Ho1.
    destruct (own fa k) as [a|] eqn:Ea.
    - destruct (decide (k ∈ Object_keys fa)) as [_|Hn]; [reflexivity|].
      apply own_None in Hn. congruence.
    - destruct (decide (k ∈ [])) as [Hk|_].
      { apply elem_of_nil in Hk. contradiction. }
      destruct (decide (k ∈ Object_keys fa)); reflexivity. }
  { intros done x r (Hw & Ho) Hx.
    destruct (own_elem_of fb x Hx) as [b Hb].
    assert (Hp : x <> "__proto__") by exact (not_proto_elem_of fb x Hpb Hx).
    rewrite (hasOwnProperty_unshadowed call fa x Hha). cbn [bind].
    destruct (own fa x) as [a|] eqn:Ea.
    - rewrite (has_own_Some _ _ _ Ea). cbn [negb].
      eexists. split; [reflexivity|]. split; [exact Hw|]. intros k.
      rewrite Ho. destruct (own fa k) as [a'|] eqn:Ea'; [reflexivity|].
      assert (k <> x) by congruence.
      destruct (decide (k ∈ done)) as [Hd|Hd];
        destruct (decide (k ∈ done ++ [x])) as [Hd'|Hd'];
        try reflexivity; exfalso.
      + apply Hd'. apply elem_of_app. left. exact Hd.
      + apply elem_of_app in Hd' as [?|Hd']; [contradiction|].
        apply list_elem_of_singleton in Hd'. contradiction.
    - rewrite (has_own_None _ _ Ea). cbn [negb].
      rewrite (prop_get_Some _ _ _ Hb). cbn [bind].
      eexists. split; [reflexivity|].
      split; [apply NoDup_prop_set; exact Hw|]. intros k.
      destruct (decide (k = x)) as [->|Hne].
      + rewrite own_prop_set_eq by exact Hp. rewrite Ea, Hb.
        destruct (decide (x ∈ done ++ [x])) as [_|Hn]; [reflexivity|].
        exfalso. apply Hn. apply elem_of_app. right. left.
      + rewrite own_prop_set_ne by exact Hne. rewrite Ho.
        destruct (own fa k) as [a'|]; [reflexivity|].
        destruct (decide (k ∈ done)) as [Hd|Hd];
          destruct (decide (k ∈ done ++ [x])) as [Hd'|Hd'];
          try reflexivity; exfalso.
        * apply Hd'. apply elem_of_app. left. exact Hd.
        * apply elem_of_app in Hd' as [?|Hd']; [contradiction|].
          apply list_elem_of_singleton in Hd'. contradiction. }
  exists r2. split; [exact Hr2|]. split; [exact Hw2|]. intros k.
  rewrite Ho2. unfold lft.
  destruct (own fa k) as [a|]; [destruct (own fb k); reflexivity|].
  destruct (own fb k) as [b|] eqn:Eb.
  - destruct (decide (k ∈ Object_keys fb)) as [_|Hn]; [reflexivity|].
    apply own_None in Hn. congruence.
  - destruct (decide (k ∈ Object_keys fb)); reflexivity.
Qed.
End recordAlignWith_own.

(** ** The mapping instance *)

(** C2 (the code departs from it at two keys).  [align m1 m2] does not have
    the union of the two key sets for every pair of records.  A key
    [__proto__] of an input is missing from the result: the assignment
    [r[key] = ...] reaches the setter of [Object.prototype] and creates no
    property.  And [align] returns no record at all when the second record has
    an own property [hasOwnProperty] that is not a function:
    [fb.hasOwnProperty(key)] calls that value. *)
Theorem record_align_special_keys :
  (wf_record [("__proto__", 1%Z)] /\
   Semialign.align (Semialign.record_Semialign no_function)
     [("__proto__", 1%Z)] (@nil (string * Z)) = Ok []) /\
  (wf_record [("a", 1%Z)] /\ wf_record [("hasOwnProperty", 2%Z)] /\
   Semialign.align (Semialign.record_Semialign no_function)
     [("a", 1%Z)] [("hasOwnProperty", 2%Z)]
   = Err (NotAFunction "hasOwnProperty")).
Proof.
  split; [split|split; [|split]]; try reflexivity;
    apply (bool_decide_unpack _); vm_compute; exact I.
Qed.

(** X16. For all records [m1] and [m2] without the keys [hasOwnProperty] and
    [__proto__] (array-index keys included), [align m1 m2] returns a record
    whose keys are exactly the keys of [m1] together with the keys of [m2],
    each key once; a key of both carries [both m1[k] m2[k]], a key of [m1]
    alone [this_ m1[k]] and a key of [m2] alone [that m2[k]].  When no key
    is an array index, [Object.keys] of the result lists the keys of [m1]
    first and then the keys that only [m2] has. *)
Theorem record_align_union (call : Calls) {A B} (m1 : Record A)
    (m2 : Record B) (H1 : ordinary_keys m1) (H2 : ordinary_keys m2) :
  exists r,
    Semialign.align (Semialign.record_Semialign call) m1 m2 = Ok r /\
    wf_record r /\
    (forall k, k ∈ Object_keys r <->
               k ∈ Object_keys m1 \/ k ∈ Object_keys m2) /\
    (forall k a b, own m1 k = Some a -> own m2 k = Some b ->
                   own r k = Some (both a b)) /\
    (forall k a, own m1 k = Some a -> own m2 k = None ->
                 own r k = Some (this_ a)) /\
    (forall k b, own m1 k = None -> own m2 k = Some b ->
                 own r k = Some (that b)) /\
    (no_index_keys m1 -> no_index_keys m2 ->
     Object_keys r =
       Object_keys m1
         ++ filter (fun k => has_own m1 k = false) (Object_keys m2)).
Proof.
  destruct (recordAlignWith_own call identity m1 m2 H1 H2)
    as (r & Hr & Hw & Ho).
  exists r. split; [exact Hr|]. split; [exact Hw|].
  split; [|split; [|split; [|split]]].
  - intros k. rewrite <- !has_own_true. unfold has_own. rewrite Ho.
    destruct (own m1 k), (own m2 k); simpl; intuition discriminate.
  - intros k a b Ha Hb. rewrite Ho, Ha, Hb. reflexivity.
  - intros k a Ha Hb. rewrite Ho, Ha, Hb. reflexivity.
  - intros k b Ha Hb. rewrite Ho, Ha, Hb. reflexivity.
  - intros Hi1 Hi2.
    assert (Hr' : Semialign.recordAlignWith call m1 m2 identity
                  = Ok (mapping_rule identity m1 m2)).
    { apply recordAlignWith_eq; split; assumption. }
    rewrite Hr' in Hr. injection Hr as <-. apply mapping_rule_keys.
Qed.

Lemma record_align_union_witness :
  ordinary_keys [("7", 2%Z); ("b", 1%Z)] /\
  ordinary_keys [("c", true); ("b", false)] /\
  exists r,
    Semialign.align (Semialign.record_Semialign no_function)
      [("7", 2%Z); ("b", 1%Z)] [("c", true); ("b", false)] = Ok r /\
    own r "b" = Some (both 1%Z false) /\
    own r "7" = Some (this_ 2%Z) /\
    own r "c" = Some (that true).
Proof.
  assert (W1 : ordinary_keys [("7", 2%Z); ("b", 1%Z)])
    by solve_ordinary_keys.
  assert (W2 : ordinary_keys [("c", true); ("b", false)])
    by solve_ordinary_keys.
  split; [exact W1|]. split; [exact W2|].
  destruct (record_align_union no_function _ _ W1 W2)
    as (r & Hr & _ & _ & Hboth & Hthis & Hthat & _).
  exists r. split; [exact Hr|].
  split; [apply Hboth; reflexivity|].
  split; [apply Hthis; reflexivity|].
  apply Hthat; reflexivity.
Defined.

(** ** The identity laws *)

(** A loop over the keys of [fa] that stores a function of each value is the
    fold of that assignment over the properties of [fa]. *)
Lemma for_of_keys_foldl {A C} (fa : list (string * A)) (g : A -> C)
    (body : string -> list (string * C) -> result (list (string * C))) :
  NoDup (Object_keys fa) ->
  (forall k a r, own fa k = Some a -> body k r = Ok (prop_set r k (g a))) ->
  forall l1 l2 acc, fa = l1 ++ l2 ->
    for_of (Object_keys l2) body acc =
    Ok (foldl (fun r kv => prop_set r kv.1 (g kv.2)) acc l2).
Proof.
  intros Hnd Hbody l1 l2. revert l1.
  induction l2 as [|[k a] l2 IH]; intros l1 acc Hfa; [reflexivity|].
  change (Object_keys ((k, a) :: l2)) with (k :: Object_keys l2).
  cbn [for_of foldl fst snd].
  rewrite (Hbody k a acc) by (subst fa; apply own_app_r; exact Hnd).
  cbn [bind]. apply (IH (l1 ++ [(k, a)])).
  rewrite <- app_assoc. exact Hfa.
Qed.

(** C5. In each [Align] instance (optional value with [nil] the absent value,
    sequence with [nil] the empty sequence, mapping with [nil] the empty
    mapping) and for every container [fa], [align fa nil] is [fa] mapped with
    [this_] and [align nil fa] is [fa] mapped with [that]. *)
Theorem align_nil_identity {A} (call : Calls) (B : Type) (o : option A)
    (xs : list A) (m : Record A) (Hm : wf_record m) :
  identity_laws Align.option_Align B o /\
  identity_laws Align.array_Align B xs /\
  identity_laws (Align.record_Align call) B m.
Proof.
  unfold identity_laws. split; [|split]; simpl.
  - destruct o; split; reflexivity.
  - unfold Align.array.nil. rewrite !array_align_eq.
    rewrite sequence_rule_nil_r, sequence_rule_nil_l. split; reflexivity.
  - unfold Semialign.record.align, Semialign.recordAlign, Align.record.nil.
    unfold Semialign.recordAlignWith, Semialign.record.map, Record in *.
    cbv zeta. split.
    + rewrite (for_of_keys_foldl m (fun a => identity (this_ a)) _ Hm)
        with (l1 := []); [reflexivity| |reflexivity].
      intros k a r Ha. cbn. rewrite (prop_get_Some _ _ _ Ha). reflexivity.
    + cbn [Object_keys fmap list_fmap for_of bind].
      rewrite (for_of_keys_foldl m (fun b => identity (that b)) _ Hm)
        with (l1 := []); [reflexivity| |reflexivity].
      intros k b r Hb. cbn. rewrite (prop_get_Some _ _ _ Hb). reflexivity.
Qed.

Lemma align_nil_identity_witness :
  wf_record [("a", 1%Z); ("b", 2%Z)] /\
  identity_laws Align.option_Align bool (Some 1%Z) /\
  identity_laws Align.array_Align bool [1%Z; 2%Z] /\
  identity_laws (Align.record_Align no_function) bool
    [("a", 1%Z); ("b", 2%Z)].
Proof.
  assert (W : wf_record [("a", 1%Z); ("b", 2%Z)]).
  { apply (bool_decide_unpack _). vm_compute. exact I. }
  split; [exact W|].
  exact (align_nil_identity no_function bool (Some 1%Z) [1%Z; 2%Z] _ W).
Defined.

(** ** Which calls return *)









(** C9 (the code departs from it).  The mapping instance is not total: on the
    records [{a: 1}] and [{hasOwnProperty: 2}] the call
    [fb.hasOwnProperty(key)] of the first loop calls the number [2], and
    neither [alignWith] nor [align] nor a combinator built on them returns. *)
Theorem record_alignWith_throws :
  wf_record [("a", 1%Z)] /\ wf_record [("hasOwnProperty", 2%Z)] /\
  Semialign.alignWith (Semialign.record_Semialign no_function)
    [("a", 1%Z)] [("hasOwnProperty", 2%Z)] (fun t => t)
  = Err (NotAFunction "hasOwnProperty") /\
  ~ returns (Align.padZip (Align.record_Align no_function)
               [("a", 1%Z)] [("hasOwnProperty", 2%Z)]) /\
  ~ total_instance (Semialign.record_Semialign no_function).
Proof.
  split; [|split; [|split; [|split]]].
  - apply (bool_decide_unpack _). vm_compute. exact I.
  - apply (bool_decide_unpack _). vm_compute. exact I.
  - reflexivity.
  - intros [r Hr]. discriminate Hr.
  - intros Htot.
    destruct (Htot Z Z (These Z Z) [("a", 1%Z)] [("hasOwnProperty", 2%Z)]
                (fun t => t)) as [[r Hr] _].
    discriminate Hr.
Qed.



(** * Further properties *)

(** ** More on the sequence rule *)

Section sequence_rule_laws.
Context {A B : Type}.
Implicit Types (xs : list A) (ys : list B).

Lemma sequence_rule_self xs :
  sequence_rule xs xs = (fun a => both a a) <$> xs.
Proof.
  induction xs as [|x xs IH]; simpl; [reflexivity|]. rewrite IH. reflexivity.
Qed.

Lemma sequence_rule_fmap {A' B'} (g : A -> A') (h : B -> B') xs ys :
  sequence_rule (g <$> xs) (h <$> ys) =
  (fun t => These_bimap t g h) <$> sequence_rule xs ys.
Proof.
  revert ys. induction xs as [|x xs IH]; intros [|y ys].
  - reflexivity.
  - rewrite fmap_nil, !sequence_rule_nil_l, <- !list_fmap_compose.
    reflexivity.
  - rewrite fmap_nil, !sequence_rule_nil_r, <- !list_fmap_compose.
    reflexivity.
  - rewrite !fmap_cons. simpl. rewrite <- IH. reflexivity.
Qed.

End sequence_rule_laws.

Lemma sequence_rule_assoc {A B C} (xs : list A) (ys : list B) (zs : list C) :
  sequence_rule (sequence_rule xs ys) zs =
  These_assoc <$> sequence_rule xs (sequence_rule ys zs).
Proof.
  revert ys zs. induction xs as [|x xs IH]; intros ys zs.
  - rewrite !sequence_rule_nil_l.
    rewrite <- (list_fmap_id zs) at 1. rewrite sequence_rule_fmap.
    rewrite <- list_fmap_compose.
    apply list_fmap_ext. intros i [b|c|b c] _; reflexivity.
  - destruct ys as [|y ys]; [|destruct zs as [|z zs]].
    + rewrite sequence_rule_nil_r, sequence_rule_nil_l.
      rewrite <- (list_fmap_id zs) at 1. rewrite sequence_rule_fmap.
      rewrite <- (list_fmap_id (x :: xs)) at 2. rewrite sequence_rule_fmap.
      rewrite <- list_fmap_compose.
      apply list_fmap_ext. intros i [a|c|a c] _; reflexivity.
    + rewrite !sequence_rule_nil_r.
      rewrite <- (list_fmap_id (x :: xs)) at 2. rewrite sequence_rule_fmap.
      rewrite <- list_fmap_compose.
      apply list_fmap_ext. intros i [a|b|a b] _; reflexivity.
    + simpl. rewrite IH. reflexivity.
Qed.

(** ** Records in the order of [Object.keys] *)

Section enumerated.
Context {A : Type}.
Implicit Types (o : list (string * A)) (k : string).








Lemma enumerated_app_cons o1 k a o2 :
  enumerated (o1 ++ (k, a) :: o2) ->
  Forall (fun kv => key_before kv.1 k) o1.
Proof.
  induction o1 as [|[k0 a0] o1 IH]; simpl; [intros _; apply Forall_nil_2|].
  intros [Hf He]. apply Forall_cons. split; [|apply IH; exact He].
  apply Forall_app in Hf as [_ Hf]. apply Forall_cons in Hf as [Hf _].
  exact Hf.
Qed.

Lemma insert_index_end o n k v :
  array_index k = Some n -> Forall (fun kv => key_before kv.1 k) o ->
  insert_index o n k v = o ++ [(k, v)].
Proof.
  intros Hk. induction o as [|[k0 a] o IH]; simpl; [reflexivity|].
  intros Hf. apply Forall_cons in Hf as [H0 Hf]. cbn [fst] in H0.
  unfold key_before in H0. rewrite Hk in H0.
  destruct (array_index k0) as [n0|]; [|contradiction].
  apply N.leb_le in H0. rewrite H0. f_equal. apply IH. exact Hf.
Qed.

Lemma has_own_map_values {B} (f : A -> B) o k :
  has_own (map_values f o) k = has_own o k.
Proof.
  unfold has_own, map_values. rewrite (own_fmap (fun _ => f)).
  destruct (own o k); reflexivity.
Qed.

Lemma keys_map_values {B} (f : A -> B) o :
  Object_keys (map_values f o) = Object_keys o.
Proof. unfold map_values. apply (keys_fmap (fun kv => f kv.2)). Qed.

Lemma own_map_values {B} (f : A -> B) o k :
  own (map_values f o) k = f <$> own o k.
Proof. unfold map_values. apply (own_fmap (fun _ => f)). Qed.

Lemma overwrite_map_values {B} (f : A -> B) o k v :
  overwrite (map_values f o) k (f v) = map_values f (overwrite o k v).
Proof.
  unfold map_values. induction o as [|[k0 a] o IH]; simpl; [reflexivity|].
  destruct (decide (k = k0)); simpl; [reflexivity|]. f_equal. exact IH.
Qed.

Lemma insert_index_map_values {B} (f : A -> B) o n k v :
  insert_index (map_values f o) n k (f v) =
  map_values f (insert_index o n k v).
Proof.
  unfold map_values. induction o as [|[k0 a] o IH]; simpl; [reflexivity|].
  destruct (array_index k0) as [n0|]; [destruct (n0 <=? n)%N|]; simpl;
    try reflexivity.
  f_equal. exact IH.
Qed.

Lemma prop_set_map_values {B} (f : A -> B) o k v :
  prop_set (map_values f o) k (f v) = map_values f (prop_set o k v).
Proof.
  unfold prop_set. rewrite has_own_map_values.
  destruct (has_own o k); [apply overwrite_map_values|].
  destruct (decide (k = "__proto__")) as [Hp|Hp]; [reflexivity|].
  destruct (array_index k) as [n|].
  - apply insert_index_map_values.
  - unfold map_values. rewrite fmap_app. reflexivity.
Qed.

(** Mapping a record that is in the order of [Object.keys] and has no key
    [__proto__] keeps every property in its place. *)
Lemma record_map_built {B} (f : A -> B) (o : Record A) :
  built o -> Semialign.record.map o f = map_values f o.
Proof.
  intros (He & Hw & Hp). unfold Semialign.record.map, Record in *.
  assert (Hgen : forall q p, o = p ++ q ->
    foldl (fun r kv => prop_set r kv.1 (f kv.2)) (map_values f p) q
    = map_values f (p ++ q)).
  { induction q as [|[k a] q IH]; intros p Ho; simpl.
    - rewrite app_nil_r. reflexivity.
    - assert (Hfresh : own p k = None).
      { apply own_None. eapply not_elem_of_prefix.
        rewrite <- Ho. exact Hw. }
      assert (Hk : k <> "__proto__").
      { eapply (not_proto_elem_of o); [exact Hp|].
        rewrite Ho. unfold Object_keys. rewrite fmap_app.
        apply elem_of_app. right. left. }
      assert (Hset : prop_set (map_values f p) k (f a)
                     = map_values f (p ++ [(k, a)])).
      { rewrite prop_set_map_values. f_equal.
        unfold prop_set. rewrite (has_own_None _ _ Hfresh).
        destruct (decide (k = "__proto__")) as [?|_]; [contradiction|].
        destruct (array_index k) as [n|] eqn:Ek; [|reflexivity].
        apply insert_index_end; [exact Ek|].
        rewrite Ho in He. eapply enumerated_app_cons. exact He. }
      rewrite Hset. rewrite (IH (p ++ [(k, a)])).
      + rewrite <- app_assoc. reflexivity.
      + rewrite <- app_assoc. exact Ho. }
  apply (Hgen o []). reflexivity.
Qed.

Lemma plain_keys_built (o : Record A) : plain_keys o -> built o.
Proof.
  intros [(Hw & _ & Hp) Hi]. split; [|split; assumption].
  unfold no_index_keys, Object_keys, Record in *.
  induction o as [|[k a] o IH]; simpl; [exact I|].
  rewrite fmap_cons in Hi. apply Forall_cons in Hi as [Hk Hi].
  apply NoDup_cons in Hw as [_ Hw].
  assert (Hp' : own o "__proto__" = None).
  { simpl in Hp. destruct (decide ("__proto__" = k)); [discriminate|].
    exact Hp. }
  split; [|apply IH; assumption].
  apply Forall_forall. intros [k1 a1] Hin. cbn [fst] in *.
  unfold key_before. rewrite Hk.
  rewrite Forall_forall in Hi. rewrite (Hi k1); [exact I|].
  apply list_elem_of_fmap. exists (k1, a1). split; [reflexivity | exact Hin].
Qed.

Lemma record_map_plain {B} (f : A -> B) (o : Record A) :
  plain_keys o -> Semialign.record.map o f = map_values f o.
Proof. intros Ho. apply record_map_built. apply plain_keys_built. exact Ho. Qed.
End enumerated.

(** ** Law 3: [alignWith] is [align] followed by [map] *)





(** ** Laws 1 and 2: aligning a container with itself, and naturality *)

Lemma filter_none {X} (P : X -> Prop) `{!forall x, Decision (P x)}
    (l : list X) :
  (forall x, x ∈ l -> ~ P x) -> filter P l = [].
Proof.
  induction l as [|x l IH]; intros Hl; [reflexivity|].
  rewrite filter_cons_False by (apply Hl; left).
  apply IH. intros y Hy. apply Hl. right. exact Hy.
Qed.

(** A filter on keys commutes with a map that keeps the keys. *)
Lemma filter_fmap_keyed {B B'} (P : string -> Prop)
    `{!forall k, Decision (P k)} (F : string * B -> string * B')
    (l : list (string * B)) :
  (forall kv, (F kv).1 = kv.1) ->
  filter (fun kv : string * B' => P kv.1) (F <$> l) =
  F <$> filter (fun kv : string * B => P kv.1) l.
Proof.
  intros HF. induction l as [|kv l IH]; [reflexivity|].
  rewrite fmap_cons. destruct (decide (P kv.1)) as [Hk|Hk].
  - rewrite (filter_cons_True (fun kv : string * B' => P kv.1))
      by (rewrite HF; exact Hk).
    rewrite (filter_cons_True (fun kv : string * B => P kv.1)) by exact Hk.
    rewrite fmap_cons. f_equal. exact IH.
  - rewrite (filter_cons_False (fun kv : string * B' => P kv.1))
      by (rewrite HF; exact Hk).
    rewrite (filter_cons_False (fun kv : string * B => P kv.1)) by exact Hk.
    exact IH.
Qed.

Lemma plain_keys_map_values {A B} (g : A -> B) (o : Record A) :
  plain_keys o -> plain_keys (map_values g o).
Proof.
  intros [(Hw & Hh & Hp) Hi]. unfold plain_keys, ordinary_keys, wf_record,
    no_index_keys. rewrite keys_map_values, !own_map_values, Hh, Hp. auto.
Qed.

Lemma mapping_rule_self {A} (fa : Record A) :
  wf_record fa ->
  mapping_rule identity fa fa = map_values (fun a => both a a) fa.
Proof.
  unfold wf_record, mapping_rule, map_values, Record. intros Hnd.
  rewrite filter_none.
  - rewrite fmap_nil, app_nil_r. apply list_fmap_ext. intros i [k a] Hi.
    unfold left_entry. cbn [fst snd].
    rewrite (own_of_elem fa k a Hnd); [reflexivity|].
    eapply list_elem_of_lookup_2. exact Hi.
  - intros [k a] Hin Hno. cbn [fst] in Hno.
    apply has_own_false in Hno. apply Hno.
    unfold Object_keys. apply list_elem_of_fmap.
    exists (k, a). split; [reflexivity | exact Hin].
Qed.

Lemma mapping_rule_natural {A B A' B'} (g : A -> A') (h : B -> B')
    (fa : Record A) (fb : Record B) :
  mapping_rule identity (map_values g fa) (map_values h fb)
  = map_values (fun t => These_bimap t g h) (mapping_rule identity fa fb).
Proof.
  unfold mapping_rule, map_values, Record.
  rewrite fmap_app, <- !list_fmap_compose. f_equal.
  - apply list_fmap_ext. intros i [k a] _.
    unfold left_entry, compose. cbn [fst snd].
    rewrite (own_fmap (fun _ => h)).
    destruct (own fb k); reflexivity.
  - pose proof (filter_fmap_keyed
                  (fun k => has_own ((fun kv => (kv.1, g kv.2)) <$> fa) k
                            = false)
                  (fun kv : string * B => (kv.1, h kv.2)) fb
                  (fun kv => eq_refl)) as Hf.
    cbv beta in Hf. rewrite Hf. clear Hf.
    rewrite <- list_fmap_compose.
    rewrite (list_filter_iff
               (fun kv : string * B =>
                  has_own ((fun kv => (kv.1, g kv.2)) <$> fa) kv.1 = false)
               (fun kv : string * B => has_own fa kv.1 = false)).
    + apply list_fmap_ext. intros i [k b] _. reflexivity.
    + intros [k b]. cbn [fst].
      pose proof (has_own_map_values g fa k) as Hh.
      unfold map_values in Hh. rewrite Hh. reflexivity.
Qed.

(** X2. Law 1 of [Semialign.ts]: aligning a container with itself gives
    [both a a] at every position.  It holds for every optional value, array
    and non-empty array, and for every record with plain keys (no key
    [hasOwnProperty] or [__proto__], no array index). *)
Theorem align_self (call : Calls) {A} (o : option A) (xs : list A)
    (ne : NonEmptyArray A) (m : Record A) (Hm : plain_keys m) :
  law_self_align Semialign.option_Semialign o /\
  law_self_align Semialign.array_Semialign xs /\
  law_self_align Semialign.nonEmptyArray_Semialign ne /\
  law_self_align (Semialign.record_Semialign call) m.
Proof.
  unfold law_self_align. split; [|split; [|split]]; simpl.
  - destruct o; reflexivity.
  - rewrite array_align_eq, sequence_rule_self. reflexivity.
  - unfold Semialign.nonEmptyArray.align.
    rewrite array_align_eq, sequence_rule_self. reflexivity.
  - unfold Semialign.record.align, Semialign.recordAlign.
    rewrite recordAlignWith_eq by assumption.
    rewrite mapping_rule_self by apply Hm.
    rewrite record_map_plain by assumption. reflexivity.
Qed.

Lemma align_self_witness :
  plain_keys [("a", 1%Z); ("b", 2%Z)] /\
  law_self_align Semialign.option_Semialign (Some 1%Z) /\
  law_self_align Semialign.array_Semialign [1%Z; 2%Z] /\
  law_self_align Semialign.nonEmptyArray_Semialign
    (MkNonEmptyArray 1%Z [2%Z]) /\
  law_self_align (Semialign.record_Semialign no_function)
    [("a", 1%Z); ("b", 2%Z)].
Proof.
  assert (W : plain_keys [("a", 1%Z); ("b", 2%Z)]) by solve_plain_keys.
  split; [exact W|].
  exact (align_self no_function (Some 1%Z) [1%Z; 2%Z]
           (MkNonEmptyArray 1%Z [2%Z]) _ W).
Defined.

(** X3. Law 2 of [Semialign.ts]: mapping the two inputs with [g] and [h] and
    then aligning is aligning and then mapping with [These.bimap g h].  It
    holds for all optional values, arrays and non-empty arrays, and for all
    records with plain keys. *)
Theorem align_natural (call : Calls) {A B A' B'} (g : A -> A') (h : B -> B')
    (oa : option A) (ob : option B) (xa : list A) (xb : list B)
    (na : NonEmptyArray A) (nb : NonEmptyArray B)
    (ma : Record A) (mb : Record B)
    (Ha : plain_keys ma) (Hb : plain_keys mb) :
  law_natural Semialign.option_Semialign oa ob g h /\
  law_natural Semialign.array_Semialign xa xb g h /\
  law_natural Semialign.nonEmptyArray_Semialign na nb g h /\
  law_natural (Semialign.record_Semialign call) ma mb g h.
Proof.
  unfold law_natural. split; [|split; [|split]]; simpl.
  - destruct oa, ob; reflexivity.
  - unfold Semialign.array.map. rewrite !array_align_eq. simpl.
    rewrite sequence_rule_fmap. reflexivity.
  - unfold Semialign.nonEmptyArray.align, Semialign.nonEmptyArray.map. simpl.
    rewrite !array_align_eq. simpl. rewrite sequence_rule_fmap. reflexivity.
  - unfold Semialign.record.align, Semialign.recordAlign.
    rewrite !record_map_plain by assumption.
    rewrite !recordAlignWith_eq
      by (try apply plain_keys_map_values; assumption).
    cbn [bind].
    rewrite record_map_plain by (apply mapping_rule_plain; assumption).
    rewrite mapping_rule_natural. reflexivity.
Qed.

Lemma align_natural_witness :
  plain_keys [("a", 1%Z); ("b", 2%Z)] /\
  plain_keys [("b", true); ("c", false)] /\
  law_natural Semialign.option_Semialign (Some 1%Z) (Some true)
    Z.succ negb /\
  law_natural Semialign.array_Semialign [1%Z; 2%Z] [true] Z.succ negb /\
  law_natural Semialign.nonEmptyArray_Semialign
    (MkNonEmptyArray 1%Z [2%Z]) (MkNonEmptyArray true []) Z.succ negb /\
  law_natural (Semialign.record_Semialign no_function)
    [("a", 1%Z); ("b", 2%Z)] [("b", true); ("c", false)] Z.succ negb.
Proof.
  assert (W1 : plain_keys [("a", 1%Z); ("b", 2%Z)]) by solve_plain_keys.
  assert (W2 : plain_keys [("b", true); ("c", false)]) by solve_plain_keys.
  split; [exact W1|]. split; [exact W2|].
  exact (align_natural no_function Z.succ negb (Some 1%Z) (Some true)
           [1%Z; 2%Z] [true]
           (MkNonEmptyArray 1%Z [2%Z]) (MkNonEmptyArray true []) _ _ W1 W2).
Defined.

(** ** Law 4: associativity *)

Lemma mapping_rule_unfold {A B C} (f : These A B -> C)
    (fa : list (string * A)) (fb : list (string * B)) :
  mapping_rule f fa fb =
  (left_entry f fb <$> fa)
  ++ (right_entry f <$> filter (fun kv => has_own fa kv.1 = false) fb).
Proof. reflexivity. Qed.

Lemma has_own_mapping_rule {A B C} (f : These A B -> C)
    (fa : list (string * A)) (fb : list (string * B)) k :
  has_own (mapping_rule f fa fb) k = false <->
  has_own fa k = false /\ has_own fb k = false.
Proof.
  rewrite !has_own_false, mapping_rule_elem_of. tauto.
Qed.

Lemma filter_mapping_rule {A B C} (fa : list (string * A))
    (fb : list (string * B)) (fc : list (string * C)) :
  filter (fun kv => has_own fa kv.1 = false)
    (mapping_rule identity fb fc) =
  (left_entry identity fc
     <$> filter (fun kv => has_own fa kv.1 = false) fb)
  ++ (right_entry identity
        <$> filter (fun kv => has_own fa kv.1 = false)
              (filter (fun kv => has_own fb kv.1 = false) fc)).
Proof.
  rewrite mapping_rule_unfold. unfold Record. rewrite filter_app. f_equal.
  - pose proof (filter_fmap_keyed (fun k => has_own fa k = false)
                  (left_entry identity fc) fb (fun kv => eq_refl)) as Hf.
    cbv beta in Hf. exact Hf.
  - pose proof (filter_fmap_keyed (fun k => has_own fa k = false)
                  (@right_entry B C _ identity)
                  (filter (fun kv => has_own fb kv.1 = false) fc)
                  (fun kv => eq_refl)) as Hf.
    cbv beta in Hf. exact Hf.
Qed.

Lemma mapping_rule_assoc {A B C} (fa : Record A) (fb : Record B)
    (fc : Record C) :
  mapping_rule identity (mapping_rule identity fa fb) fc =
  map_values These_assoc
    (mapping_rule identity fa (mapping_rule identity fb fc)).
Proof.
  unfold map_values, Record in *.
  rewrite (mapping_rule_unfold identity (mapping_rule identity fa fb) fc).
  rewrite (mapping_rule_unfold identity fa (mapping_rule identity fb fc)).
  pose proof (filter_mapping_rule fa fb fc) as Hf. unfold Record in Hf.
  rewrite Hf. clear Hf.
  rewrite (list_filter_iff
             (fun kv : string * C =>
                has_own (mapping_rule identity fa fb) kv.1 = false)
             (fun kv : string * C =>
                has_own fa kv.1 = false /\ has_own fb kv.1 = false))
    by (intros kv; apply has_own_mapping_rule).
  rewrite <- list_filter_filter.
  rewrite (mapping_rule_unfold identity fa fb).
  rewrite !fmap_app, <- !list_fmap_compose, <- app_assoc.
  f_equal; [|f_equal].
  - apply list_fmap_ext. intros i [k a] _.
    unfold compose, left_entry. cbn [fst snd].
    rewrite mapping_rule_own.
    destruct (own fb k), (own fc k); reflexivity.
  - apply list_fmap_ext. intros i [k b] _.
    unfold compose, left_entry, right_entry. cbn [fst snd].
    destruct (own fc k); reflexivity.
Qed.

(** X4. Law 4 of [Semialign.ts]: aligning is associative up to the
    reassociation [These.assoc] of nested [These] values.  It holds for all
    optional values, arrays and non-empty arrays, and for all records with
    plain keys. *)
Theorem align_assoc (call : Calls) {A B C}
    (oa : option A) (ob : option B) (oc : option C)
    (xa : list A) (xb : list B) (xc : list C)
    (na : NonEmptyArray A) (nb : NonEmptyArray B) (nc : NonEmptyArray C)
    (ma : Record A) (mb : Record B) (mc : Record C)
    (Ha : plain_keys ma) (Hb : plain_keys mb) (Hc : plain_keys mc) :
  law_assoc Semialign.option_Semialign oa ob oc /\
  law_assoc Semialign.array_Semialign xa xb xc /\
  law_assoc Semialign.nonEmptyArray_Semialign na nb nc /\
  law_assoc (Semialign.record_Semialign call) ma mb mc.
Proof.
  unfold law_assoc. split; [|split; [|split]]; simpl.
  - destruct oa, ob, oc; reflexivity.
  - rewrite !array_align_eq. simpl. rewrite !array_align_eq. simpl.
    rewrite sequence_rule_assoc. reflexivity.
  - unfold Semialign.nonEmptyArray.align, Semialign.nonEmptyArray.map.
    rewrite !array_align_eq. simpl. rewrite !array_align_eq. simpl.
    rewrite sequence_rule_assoc. reflexivity.
  - unfold Semialign.record.align, Semialign.recordAlign.
    rewrite (recordAlignWith_eq call identity ma mb) by assumption.
    rewrite (recordAlignWith_eq call identity mb mc) by assumption.
    cbn [bind].
    rewrite !recordAlignWith_eq by (try apply mapping_rule_plain; assumption).
    cbn [bind].
    rewrite record_map_plain
      by (repeat apply mapping_rule_plain; assumption).
    rewrite mapping_rule_assoc. reflexivity.
Qed.

Lemma align_assoc_witness :
  plain_keys [("a", 1%Z); ("b", 2%Z)] /\
  plain_keys [("b", true); ("c", false)] /\
  plain_keys [("d", 0); ("a", 5)] /\
  law_assoc Semialign.option_Semialign (Some 1%Z) (@None bool) (Some 0) /\
  law_assoc Semialign.array_Semialign [1%Z; 2%Z] [true] [0; 1; 2] /\
  law_assoc Semialign.nonEmptyArray_Semialign
    (MkNonEmptyArray 1%Z [2%Z]) (MkNonEmptyArray true [])
    (MkNonEmptyArray 0 [1; 2]) /\
  law_assoc (Semialign.record_Semialign no_function)
    [("a", 1%Z); ("b", 2%Z)] [("b", true); ("c", false)] [("d", 0); ("a", 5)].
Proof.
  assert (W1 : plain_keys [("a", 1%Z); ("b", 2%Z)]) by solve_plain_keys.
  assert (W2 : plain_keys [("b", true); ("c", false)]) by solve_plain_keys.
  assert (W3 : plain_keys [("d", 0); ("a", 5)]) by solve_plain_keys.
  split; [exact W1|]. split; [exact W2|]. split; [exact W3|].
  exact (align_assoc no_function (Some 1%Z) None (Some 0)
           [1%Z; 2%Z] [true] [0; 1; 2]
           (MkNonEmptyArray 1%Z [2%Z]) (MkNonEmptyArray true [])
           (MkNonEmptyArray 0 [1; 2]) _ _ _ W1 W2 W3).
Defined.

(** ** [salign] inherits the semigroup's laws *)

Lemma array_salign_eq {A} (S : Semigroup A) (xs ys : list A) :
  Align.salign Align.array_Align S xs ys =
  Ok (resolve S <$> sequence_rule xs ys).
Proof. unfold Align.salign. simpl. apply array_alignWith_eq. Qed.

Lemma record_salign_eq (call : Calls) {A} (S : Semigroup A)
    (mx my : Record A) :
  plain_keys mx -> plain_keys my ->
  Align.salign (Align.record_Align call) S mx my =
  Ok (mapping_rule (resolve S) mx my).
Proof.
  intros Hx Hy. unfold Align.salign. simpl.
  unfold Semialign.record.alignWith.
  exact (recordAlignWith_eq call
           (fun xy => These_fold xy identity identity (concat S))
           mx my Hx Hy).
Qed.

Lemma map_values_compose {A B C} (f : A -> B) (g : B -> C) (m : Record A) :
  map_values g (map_values f m) = map_values (fun a => g (f a)) m.
Proof.
  unfold map_values, Record. rewrite <- list_fmap_compose. reflexivity.
Qed.

Lemma map_values_id {A} (m : Record A) : map_values identity m = m.
Proof.
  unfold map_values, Record.
  rewrite <- (list_fmap_id m) at 2.
  apply list_fmap_ext. intros i [k a] _. reflexivity.
Qed.

Lemma map_values_ext {A B} (f g : A -> B) (m : Record A) :
  (forall a, f a = g a) -> map_values f m = map_values g m.
Proof.
  intros Hfg. unfold map_values, Record.
  apply list_fmap_ext. intros i [k a] _. cbn [fst snd]. rewrite Hfg.
  reflexivity.
Qed.

Lemma mapping_rule_map {A B C} (f : These A B -> C) (fa : Record A)
    (fb : Record B) :
  mapping_rule f fa fb = map_values f (mapping_rule identity fa fb).
Proof.
  unfold mapping_rule, map_values, Record.
  rewrite fmap_app, <- !list_fmap_compose. reflexivity.
Qed.

Lemma filter_no_left {A B} (fb : list (string * B)) :
  filter (fun kv : string * B => has_own (@nil (string * A)) kv.1 = false) fb
  = fb.
Proof.
  induction fb as [|kv fb IH]; [reflexivity|].
  rewrite (filter_cons_True
             (fun kv : string * B =>
                has_own (@nil (string * A)) kv.1 = false)) by reflexivity.
  f_equal. exact IH.
Qed.

Section salign_laws.
Context {A : Type} (S : Semigroup A).

Lemma resolve_sequence_comm (xs ys : list A) :
  (forall a b, concat S a b = concat S b a) ->
  resolve S <$> sequence_rule xs ys = resolve S <$> sequence_rule ys xs.
Proof.
  intros Hc. revert ys. induction xs as [|x xs IH]; intros [|y ys].
  - reflexivity.
  - rewrite sequence_rule_nil_l, sequence_rule_nil_r.
    rewrite <- !list_fmap_compose. reflexivity.
  - rewrite sequence_rule_nil_l, sequence_rule_nil_r.
    rewrite <- !list_fmap_compose. reflexivity.
  - simpl. rewrite Hc. f_equal. apply IH.
Qed.

Lemma resolve_assoc_l (t : These A (These A A)) :
  (forall a b c, concat S (concat S a b) c = concat S a (concat S b c)) ->
  resolve S (These_bimap (These_assoc t) (resolve S) identity) =
  resolve S (These_bimap t identity (resolve S)).
Proof.
  intros Ha. destruct t as [a|[b|c|b c]|a [b|c|b c]]; simpl;
    unfold identity; auto.
Qed.

Lemma resolve_sequence_assoc (xs ys zs : list A) :
  (forall a b c, concat S (concat S a b) c = concat S a (concat S b c)) ->
  resolve S <$> sequence_rule (resolve S <$> sequence_rule xs ys) zs =
  resolve S <$> sequence_rule xs (resolve S <$> sequence_rule ys zs).
Proof.
  intros Ha.
  rewrite <- (list_fmap_id zs) at 1. rewrite <- (list_fmap_id xs) at 2.
  rewrite !sequence_rule_fmap, sequence_rule_assoc.
  rewrite <- !list_fmap_compose.
  apply list_fmap_ext. intros i t _. apply resolve_assoc_l. exact Ha.
Qed.

Lemma resolve_mapping_assoc (fa fb fc : Record A) :
  (forall a b c, concat S (concat S a b) c = concat S a (concat S b c)) ->
  mapping_rule (resolve S) (mapping_rule (resolve S) fa fb) fc =
  mapping_rule (resolve S) fa (mapping_rule (resolve S) fb fc).
Proof.
  intros Ha.
  rewrite (mapping_rule_map (resolve S) (mapping_rule (resolve S) fa fb) fc).
  rewrite (mapping_rule_map (resolve S) fa (mapping_rule (resolve S) fb fc)).
  rewrite (mapping_rule_map (resolve S) fa fb).
  rewrite (mapping_rule_map (resolve S) fb fc).
  rewrite <- (map_values_id fc) at 1. rewrite <- (map_values_id fa) at 2.
  rewrite !mapping_rule_natural, mapping_rule_assoc.
  rewrite !map_values_compose. apply map_values_ext.
  intros t. apply resolve_assoc_l. exact Ha.
Qed.
End salign_laws.

(** X5. With a commutative semigroup [salign] is commutative: on optional
    values and on arrays the two orders give the same result; on records
    without a key [hasOwnProperty] or [__proto__] both orders return a record,
    and the two records have the same value at every key (their keys may be
    enumerated in different orders). *)
Theorem salign_comm (call : Calls) {A} (S : Semigroup A)
    (Hcomm : forall a b, concat S a b = concat S b a)
    (ox oy : option A) (xs ys : list A) (mx my : Record A)
    (Hx : ordinary_keys mx) (Hy : ordinary_keys my) :
  Align.salign Align.option_Align S ox oy
    = Align.salign Align.option_Align S oy ox /\
  Align.salign Align.array_Align S xs ys
    = Align.salign Align.array_Align S ys xs /\
  exists r1 r2,
    Align.salign (Align.record_Align call) S mx my = Ok r1 /\
    Align.salign (Align.record_Align call) S my mx = Ok r2 /\
    forall k, own r1 k = own r2 k.
Proof.
  split; [|split].
  - destruct ox, oy; cbn; try reflexivity. rewrite Hcomm. reflexivity.
  - rewrite !array_salign_eq. f_equal. apply resolve_sequence_comm.
    exact Hcomm.
  - destruct (recordAlignWith_own call
                (fun xy => These_fold xy identity identity (concat S))
                mx my Hx Hy) as (r1 & E1 & _ & O1).
    destruct (recordAlignWith_own call
                (fun xy => These_fold xy identity identity (concat S))
                my mx Hy Hx) as (r2 & E2 & _ & O2).
    exists r1, r2. split; [exact E1|]. split; [exact E2|].
    intros k. rewrite O1, O2.
    destruct (own mx k), (own my k); simpl; try reflexivity.
    rewrite Hcomm. reflexivity.
Qed.

Lemma salign_comm_witness :
  (forall a b, concat semigroupAll a b = concat semigroupAll b a) /\
  ordinary_keys [("1", false); ("a", true)] /\
  ordinary_keys [("1", true); ("c", false)] /\
  exists r1 r2,
    Align.salign (Align.record_Align no_function) semigroupAll
      [("1", false); ("a", true)] [("1", true); ("c", false)] = Ok r1 /\
    Align.salign (Align.record_Align no_function) semigroupAll
      [("1", true); ("c", false)] [("1", false); ("a", true)] = Ok r2 /\
    forall k, own r1 k = own r2 k.
Proof.
  assert (Hc : forall a b, concat semigroupAll a b = concat semigroupAll b a).
  { intros [] []; reflexivity. }
  assert (W1 : ordinary_keys [("1", false); ("a", true)])
    by solve_ordinary_keys.
  assert (W2 : ordinary_keys [("1", true); ("c", false)])
    by solve_ordinary_keys.
  split; [exact Hc|]. split; [exact W1|]. split; [exact W2|].
  exact (proj2 (proj2 (salign_comm no_function semigroupAll Hc (Some true)
                         None [true; false] [true] _ _ W1 W2))).
Defined.

(** X6. With an associative semigroup [salign] is associative, on optional
    values, on arrays and on records with plain keys: combining [x] with [y]
    and then with [z] gives the same container as combining [x] with the
    combination of [y] and [z]. *)
Theorem salign_assoc (call : Calls) {A} (S : Semigroup A)
    (Hassoc : forall a b c,
        concat S (concat S a b) c = concat S a (concat S b c))
    (ox oy oz : option A) (xs ys zs : list A) (mx my mz : Record A)
    (Hx : plain_keys mx) (Hy : plain_keys my) (Hz : plain_keys mz) :
  (r <- Align.salign Align.option_Align S ox oy ;;
   Align.salign Align.option_Align S r oz) =
  (r <- Align.salign Align.option_Align S oy oz ;;
   Align.salign Align.option_Align S ox r) /\
  (r <- Align.salign Align.array_Align S xs ys ;;
   Align.salign Align.array_Align S r zs) =
  (r <- Align.salign Align.array_Align S ys zs ;;
   Align.salign Align.array_Align S xs r) /\
  (r <- Align.salign (Align.record_Align call) S mx my ;;
   Align.salign (Align.record_Align call) S r mz) =
  (r <- Align.salign (Align.record_Align call) S my mz ;;
   Align.salign (Align.record_Align call) S mx r).
Proof.
  split; [|split].
  - destruct ox, oy, oz; cbn; try reflexivity.
    unfold identity. rewrite Hassoc. reflexivity.
  - rewrite !array_salign_eq. cbn [bind]. rewrite !array_salign_eq.
    f_equal. apply resolve_sequence_assoc. exact Hassoc.
  - rewrite (record_salign_eq call S mx my), (record_salign_eq call S my mz)
      by assumption.
    cbn [bind].
    rewrite !record_salign_eq by (try apply mapping_rule_plain; assumption).
    f_equal. apply resolve_mapping_assoc. exact Hassoc.
Qed.

Lemma salign_assoc_witness :
  (forall a b c : bool,
      concat getFirstSemigroup (concat getFirstSemigroup a b) c
      = concat getFirstSemigroup a (concat getFirstSemigroup b c)) /\
  plain_keys [("a", true); ("b", false)] /\
  plain_keys [("b", true); ("c", false)] /\
  plain_keys [("d", false); ("a", false)] /\
  (r <- Align.salign (Align.record_Align no_function) getFirstSemigroup
          [("a", true); ("b", false)] [("b", true); ("c", false)] ;;
   Align.salign (Align.record_Align no_function) getFirstSemigroup
     r [("d", false); ("a", false)]) =
  (r <- Align.salign (Align.record_Align no_function) getFirstSemigroup
          [("b", true); ("c", false)] [("d", false); ("a", false)] ;;
   Align.salign (Align.record_Align no_function) getFirstSemigroup
     [("a", true); ("b", false)] r).
Proof.
  assert (Ha : forall a b c : bool,
             concat getFirstSemigroup (concat getFirstSemigroup a b) c
             = concat getFirstSemigroup a (concat getFirstSemigroup b c)).
  { intros a b c. reflexivity. }
  assert (W1 : plain_keys [("a", true); ("b", false)]) by solve_plain_keys.
  assert (W2 : plain_keys [("b", true); ("c", false)]) by solve_plain_keys.
  assert (W3 : plain_keys [("d", false); ("a", false)]) by solve_plain_keys.
  split; [exact Ha|]. split; [exact W1|]. split; [exact W2|].
  split; [exact W3|].
  exact (proj2 (proj2 (salign_assoc no_function getFirstSemigroup Ha
                         (Some true) None None
                         [true; false] [true] [false; false]
                         _ _ _ W1 W2 W3))).
Defined.

(** X7. [nil] is a two-sided identity of [salign], whatever the semigroup:
    combining a container with [nil], on either side, returns the container
    itself.  This holds for optional values, for arrays and for records with
    plain keys. *)
Theorem salign_nil (call : Calls) {A} (S : Semigroup A) (o : option A)
    (xs : list A) (m : Record A) (Hm : plain_keys m) :
  (Align.salign Align.option_Align S o (Align.nil Align.option_Align) = Ok o /\
   Align.salign Align.option_Align S (Align.nil Align.option_Align) o = Ok o) /\
  (Align.salign Align.array_Align S xs (Align.nil Align.array_Align) = Ok xs /\
   Align.salign Align.array_Align S (Align.nil Align.array_Align) xs = Ok xs) /\
  (Align.salign (Align.record_Align call) S m
     (Align.nil (Align.record_Align call)) = Ok m /\
   Align.salign (Align.record_Align call) S
     (Align.nil (Align.record_Align call)) m = Ok m).
Proof.
  split; [|split].
  - destruct o; split; reflexivity.
  - rewrite !array_salign_eq. cbn [Align.nil Align.array_Align].
    unfold Align.array.nil.
    rewrite sequence_rule_nil_r, sequence_rule_nil_l.
    rewrite <- !list_fmap_compose. split; f_equal; apply list_fmap_id.
  - cbn [Align.nil Align.record_Align]. unfold Align.record.nil.
    rewrite !record_salign_eq by (try apply plain_keys_nil; assumption).
    unfold mapping_rule, Record. split; f_equal.
    + rewrite filter_nil, fmap_nil, app_nil_r.
      rewrite <- (list_fmap_id m) at 2.
      apply list_fmap_ext. intros i [k a] _. reflexivity.
    + rewrite fmap_nil, app_nil_l.
      pose proof (@filter_no_left A A m) as Hf. rewrite Hf.
      rewrite <- (list_fmap_id m) at 2.
      apply list_fmap_ext. intros i [k a] _. reflexivity.
Qed.

Lemma salign_nil_witness :
  plain_keys [("a", true); ("b", false)] /\
  Align.salign (Align.record_Align no_function) semigroupAll
    [("a", true); ("b", false)]
    (Align.nil (Align.record_Align no_function))
  = Ok [("a", true); ("b", false)].
Proof.
  assert (W : plain_keys [("a", true); ("b", false)]) by solve_plain_keys.
  split; [exact W|].
  exact (proj1 (proj2 (proj2 (salign_nil no_function semigroupAll (Some true)
                                [true] _ W)))).
Defined.

(** ** [padZipWith] and [padZip] on arrays and records *)

(** X8. On arrays [padZipWith xs ys f] returns an array as long as the longer
    input whose element at index [i] is [f] applied to the optional [xs[i]]
    and the optional [ys[i]] (each present exactly when the index is inside
    that array); [padZip] returns the pairs of these optionals. *)
Theorem array_padZipWith_shape {A B C} (xs : list A) (ys : list B)
    (f : option A -> option B -> C) :
  (exists r,
     Align.padZipWith Align.array_Align xs ys f = Ok r /\
     length r = Nat.max (length xs) (length ys) /\
     forall i, i < Nat.max (length xs) (length ys) ->
               r !! i = Some (f (xs !! i) (ys !! i))) /\
  (exists r,
     Align.padZip Align.array_Align xs ys = Ok r /\
     length r = Nat.max (length xs) (length ys) /\
     forall i, i < Nat.max (length xs) (length ys) ->
               r !! i = Some (xs !! i, ys !! i)).
Proof.
  assert (Hgen : forall D (g : option A -> option B -> D),
    exists r,
      Align.padZipWith Align.array_Align xs ys g = Ok r /\
      length r = Nat.max (length xs) (length ys) /\
      forall i, i < Nat.max (length xs) (length ys) ->
                r !! i = Some (g (xs !! i) (ys !! i))).
  { intros D g. eexists. split; [apply array_padZipWith_eq|].
    split; [rewrite length_fmap; apply sequence_rule_length|].
    intros i Hi. rewrite list_lookup_fmap.
    destruct (xs !! i) as [a|] eqn:Ex, (ys !! i) as [b|] eqn:Ey.
    - rewrite (sequence_rule_both _ _ _ _ _ Ex Ey). reflexivity.
    - rewrite (sequence_rule_this _ _ _ _ Ex Ey). reflexivity.
    - rewrite (sequence_rule_that xs ys i b Ex Ey). reflexivity.
    - apply lookup_ge_None in Ex. apply lookup_ge_None in Ey. lia. }
  split; [apply Hgen|]. unfold Align.padZip. apply (Hgen _ (fun a b => tuple a b)).
Qed.

(** X9. On records without a key [hasOwnProperty] or [__proto__],
    [padZipWith fa fb f] returns an object that has exactly the keys of [fa]
    and of [fb]; under a key it holds [f] applied to the optional values of
    [fa] and of [fb] under that key, and a key of neither input is missing
    from it. *)
Theorem record_padZipWith_shape (call : Calls) {A B C} (fa : Record A)
    (fb : Record B) (f : option A -> option B -> C)
    (Ha : ordinary_keys fa) (Hb : ordinary_keys fb) :
  exists r,
    Align.padZipWith (Align.record_Align call) fa fb f = Ok r /\
    wf_record r /\
    forall k, own r k =
              match own fa k, own fb k with
              | None, None => None
              | oa, ob => Some (f oa ob)
              end.
Proof.
  destruct (recordAlignWith_own call
              (fun ab =>
                 These_fold (These_bimap ab some some)
                   (fun a => f a none) (fun b => f none b) (fun a b => f a b))
              fa fb Ha Hb) as (r & E & Hw & Ho).
  exists r. split; [exact E|]. split; [exact Hw|].
  intros k. rewrite Ho.
  destruct (own fa k), (own fb k); reflexivity.
Qed.

Lemma record_padZipWith_shape_witness :
  ordinary_keys [("2", 2%Z); ("a", 1%Z)] /\
  ordinary_keys [("1", false); ("2", true)] /\
  exists r,
    Align.padZipWith (Align.record_Align no_function)
      [("2", 2%Z); ("a", 1%Z)] [("1", false); ("2", true)] tuple = Ok r /\
    own r "a" = Some (Some 1%Z, None) /\
    own r "2" = Some (Some 2%Z, Some true) /\
    own r "1" = Some (None, Some false) /\
    own r "z" = None.
Proof.
  assert (W1 : ordinary_keys [("2", 2%Z); ("a", 1%Z)])
    by solve_ordinary_keys.
  assert (W2 : ordinary_keys [("1", false); ("2", true)])
    by solve_ordinary_keys.
  split; [exact W1|]. split; [exact W2|].
  destruct (record_padZipWith_shape no_function _ _ tuple W1 W2)
    as (r & Hr & _ & Hown).
  exists r. split; [exact Hr|]. rewrite !Hown. auto.
Defined.

(** ** The pad-zips lose nothing *)

Lemma catOptions_Some {A} (l : list A) : catOptions (Some <$> l) = l.
Proof. induction l as [|a l IH]; simpl; [reflexivity|]. f_equal. exact IH. Qed.

Lemma catOptions_None {A B} (l : list B) :
  catOptions ((fun _ => @None A) <$> l) = [].
Proof. induction l as [|b l IH]; simpl; [reflexivity | exact IH]. Qed.

(** X10. [padZip] on arrays discards no element: from the array of pairs it
    returns, the present left components, in order, are [xs], and the
    present right components are [ys]. *)
Theorem array_padZip_lossless {A B} (xs : list A) (ys : list B) :
  exists r,
    Align.padZip Align.array_Align xs ys = Ok r /\
    catOptions (r.*1) = xs /\
    catOptions (r.*2) = ys.
Proof.
  eexists. split; [unfold Align.padZip; apply array_padZipWith_eq|].
  rewrite <- !list_fmap_compose. split.
  - revert ys. induction xs as [|x xs IH]; intros [|y ys].
    + reflexivity.
    + rewrite sequence_rule_nil_l, <- list_fmap_compose.
      apply (catOptions_None (y :: ys)).
    + rewrite sequence_rule_nil_r, <- list_fmap_compose.
      apply (catOptions_Some (x :: xs)).
    + simpl. f_equal. apply IH.
  - revert ys. induction xs as [|x xs IH]; intros [|y ys].
    + reflexivity.
    + rewrite sequence_rule_nil_l, <- list_fmap_compose.
      apply (catOptions_Some (y :: ys)).
    + rewrite sequence_rule_nil_r, <- list_fmap_compose.
      apply (catOptions_None (x :: xs)).
    + simpl. f_equal. apply IH.
Qed.

Lemma lpad_rule_snd {A B} (xs : list A) (ys : list B) :
  (lpad_rule (fun a b => tuple a b) xs ys).*2 = ys.
Proof.
  unfold lpad_rule. apply list_eq. intros i.
  rewrite list_lookup_fmap, list_lookup_imap.
  destruct (ys !! i); reflexivity.
Qed.

Lemma lpad_rule_fst {A B} (xs : list A) (ys : list B) :
  catOptions ((lpad_rule (fun a b => tuple a b) xs ys).*1)
  = take (length ys) xs.
Proof.
  unfold lpad_rule. revert xs. induction ys as [|y ys IH]; intros xs.
  - reflexivity.
  - rewrite imap_cons, fmap_cons. destruct xs as [|x xs].
    + pose proof (IH []) as H0. rewrite take_nil in H0.
      simpl. etrans; [|exact H0]. reflexivity.
    + simpl. f_equal. rewrite <- (IH xs). reflexivity.
Qed.

(** X11. [lpadZip] keeps its right input whole and [rpadZip] its left input:
    the right components of [lpadZip xs ys] are exactly [ys], and its present
    left components are the first [length ys] elements of [xs]; for
    [rpadZip xs ys] the left components are exactly [xs] and the present right
    components are the first [length xs] elements of [ys]. *)
Theorem lpadZip_rpadZip_sides {A B} (xs : list A) (ys : list B) :
  (exists r,
     Align.lpadZip xs ys = Ok r /\
     r.*2 = ys /\
     catOptions (r.*1) = take (length ys) xs) /\
  (exists r,
     Align.rpadZip xs ys = Ok r /\
     r.*1 = xs /\
     catOptions (r.*2) = take (length xs) ys).
Proof.
  split.
  - exists (lpad_rule (fun a b => tuple a b) xs ys).
    split; [apply lpadZipWith_eq|].
    split; [apply lpad_rule_snd | apply lpad_rule_fst].
  - exists (rpad_rule (fun a b => tuple a b) xs ys).
    split; [apply rpadZipWith_eq|]. split.
    + rewrite <- (lpad_rule_snd ys xs) at 2.
      unfold rpad_rule, lpad_rule. apply list_eq. intros i.
      rewrite !list_lookup_fmap, !list_lookup_imap.
      destruct (xs !! i); reflexivity.
    + rewrite <- (lpad_rule_fst ys xs). f_equal.
      unfold rpad_rule, lpad_rule. apply list_eq. intros i.
      rewrite !list_lookup_fmap, !list_lookup_imap.
      destruct (xs !! i); reflexivity.
Qed.

(** X12. Each [...With] combinator on arrays is its pairing combinator
    followed by a map: [padZipWith xs ys f] applies [f] to the pairs of
    [padZip xs ys], [lpadZipWith xs ys f] to the pairs of [lpadZip xs ys], and
    [rpadZipWith xs ys f] to the pairs of [rpadZip xs ys]. *)
Theorem padZipWith_through_padZip {A B C} (xs : list A) (ys : list B)
    (f : option A -> option B -> C) (fl : option A -> B -> C)
    (fr : A -> option B -> C) :
  Align.padZipWith Align.array_Align xs ys f =
    (r <- Align.padZip Align.array_Align xs ys ;;
     Ok ((fun p => f p.1 p.2) <$> r)) /\
  Align.lpadZipWith xs ys fl =
    (r <- Align.lpadZip xs ys ;; Ok ((fun p => fl p.1 p.2) <$> r)) /\
  Align.rpadZipWith xs ys fr =
    (r <- Align.rpadZip xs ys ;; Ok ((fun p => fr p.1 p.2) <$> r)).
Proof.
  split; [|split].
  - unfold Align.padZip. rewrite !array_padZipWith_eq. cbn [bind].
    rewrite <- list_fmap_compose. f_equal.
    apply list_fmap_ext. intros i [a|b|a b] _; reflexivity.
  - unfold Align.lpadZip. rewrite !lpadZipWith_eq. cbn [bind]. f_equal.
    unfold lpad_rule. apply list_eq. intros i.
    rewrite list_lookup_fmap, !list_lookup_imap.
    destruct (ys !! i); reflexivity.
  - unfold Align.rpadZip. rewrite !rpadZipWith_eq. cbn [bind]. f_equal.
    unfold rpad_rule. apply list_eq. intros i.
    rewrite list_lookup_fmap, !list_lookup_imap.
    destruct (xs !! i); reflexivity.
Qed.

(** ** The sequence instances agree *)

(** X13. The non-empty sequence instance agrees with the sequence instance:
    the array of the non-empty array that [nonEmptyArray.alignWith] returns is
    what [array.alignWith] returns on the arrays of the two inputs. *)
Theorem nonEmptyArray_alignWith_toArray {A B C} (fa : NonEmptyArray A)
    (fb : NonEmptyArray B) (f : These A B -> C) :
  (r <- Semialign.nonEmptyArray.alignWith fa fb f ;; Ok (toArray r)) =
  Semialign.array.alignWith (toArray fa) (toArray fb) f.
Proof.
  unfold Semialign.nonEmptyArray.alignWith, toArray.
  rewrite !array_alignWith_eq. reflexivity.
Qed.

Lemma fmap_sequence_rule_split {A B C} (f : These A B -> C) (xs : list A)
    (ys : list B) :
  f <$> sequence_rule xs ys =
  zip_with (fun a b => f (both a b)) xs ys
    ++ ((fun a => f (this_ a)) <$> drop (length ys) xs)
    ++ ((fun b => f (that b)) <$> drop (length xs) ys).
Proof.
  revert ys. induction xs as [|x xs IH]; intros [|y ys].
  - reflexivity.
  - rewrite sequence_rule_nil_l, <- list_fmap_compose. reflexivity.
  - rewrite sequence_rule_nil_r, <- list_fmap_compose. simpl.
    rewrite app_nil_r. reflexivity.
  - simpl. f_equal. apply IH.
Qed.

(** X14. [array.alignWith fa fb f] is the zip of the two arrays under
    [f (both _ _)], followed by the elements of [fa] from index [length fb] on
    under [f (this_ _)] and by the elements of [fb] from index [length fa] on
    under [f (that _)] (at most one of the two tails is not empty); on arrays
    of the same length it is the zip alone. *)
Theorem array_alignWith_zip {A B C} (fa : list A) (fb : list B)
    (f : These A B -> C) :
  Semialign.array.alignWith fa fb f =
    Ok (zip_with (fun a b => f (both a b)) fa fb
          ++ ((fun a => f (this_ a)) <$> drop (length fb) fa)
          ++ ((fun b => f (that b)) <$> drop (length fa) fb)) /\
  (drop (length fb) fa = [] \/ drop (length fa) fb = []) /\
  (length fa = length fb ->
   Semialign.array.alignWith fa fb f =
     Ok (zip_with (fun a b => f (both a b)) fa fb)).
Proof.
  assert (Heq : Semialign.array.alignWith fa fb f =
    Ok (zip_with (fun a b => f (both a b)) fa fb
          ++ ((fun a => f (this_ a)) <$> drop (length fb) fa)
          ++ ((fun b => f (that b)) <$> drop (length fa) fb))).
  { rewrite array_alignWith_eq, fmap_sequence_rule_split. reflexivity. }
  split; [exact Heq|]. split.
  - destruct (decide (length fa <= length fb)).
    + left. apply drop_ge. assumption.
    + right. apply drop_ge. lia.
  - intros Hlen. rewrite Heq, !drop_ge by lia.
    rewrite !fmap_nil, !app_nil_r. reflexivity.
Qed.

Lemma array_alignWith_zip_witness :
  length [1%Z; 2%Z] = length [true; false] /\
  Semialign.array.alignWith [1%Z; 2%Z] [true; false] identity =
    Ok (zip_with (fun a b => identity (both a b)) [1%Z; 2%Z] [true; false]).
Proof.
  assert (H : length [1%Z; 2%Z] = length [true; false]) by reflexivity.
  split; [exact H|].
  exact (proj2 (proj2
    (array_alignWith_zip [1%Z; 2%Z] [true; false] identity)) H).
Defined.

(** ** The one-sided pad-zips as a zip and a padded rest *)

Lemma lpad_rule_zip {A B C} (f : option A -> B -> C) (xs : list A)
    (ys : list B) :
  lpad_rule f xs ys =
  zip_with (fun a b => f (Some a) b) xs ys
    ++ (f None <$> drop (length xs) ys).
Proof.
  unfold lpad_rule. revert xs. induction ys as [|y ys IH]; intros xs.
  - destruct xs; reflexivity.
  - rewrite imap_cons. destruct xs as [|x xs].
    + simpl. f_equal. etrans; [|apply (imap_const (f None))].
      apply imap_ext. intros i b _. reflexivity.
    + simpl. f_equal. apply IH.
Qed.

(** X15. [lpadZipWith xs ys f] is the zip of [xs] and [ys] under
    [f (some _) _], followed by the elements of [ys] from index [length xs] on
    under [f none _]; [rpadZipWith xs ys f] is the zip under [f _ (some _)],
    followed by the elements of [xs] from index [length ys] on under
    [f _ none].  So with no left input [lpadZipWith] maps [f none] over [ys],
    and with a left input at least as long as the right one it is the
    zip. *)
Theorem lpadZipWith_zip {A B C} (xs : list A) (ys : list B)
    (fl : option A -> B -> C) (fr : A -> option B -> C) :
  Align.lpadZipWith xs ys fl =
    Ok (zip_with (fun a b => fl (some a) b) xs ys
          ++ (fl none <$> drop (length xs) ys)) /\
  Align.rpadZipWith xs ys fr =
    Ok (zip_with (fun a b => fr a (some b)) xs ys
          ++ ((fun a => fr a none) <$> drop (length ys) xs)) /\
  Align.lpadZipWith [] ys fl = Ok (fl none <$> ys) /\
  (length ys <= length xs ->
   Align.lpadZipWith xs ys fl =
     Ok (zip_with (fun a b => fl (some a) b) xs ys)).
Proof.
  assert (Hl : forall xs0,
    Align.lpadZipWith xs0 ys fl =
    Ok (zip_with (fun a b => fl (some a) b) xs0 ys
          ++ (fl none <$> drop (length xs0) ys))).
  { intros xs0. rewrite lpadZipWith_eq, lpad_rule_zip. reflexivity. }
  split; [apply Hl|]. split; [|split].
  - unfold Align.rpadZipWith. rewrite lpadZipWith_eq, lpad_rule_zip.
    f_equal. f_equal. apply zip_with_flip.
  - rewrite Hl. reflexivity.
  - intros Hlen. rewrite Hl, drop_ge by exact Hlen.
    rewrite fmap_nil, app_nil_r. reflexivity.
Qed.

Lemma lpadZipWith_zip_witness :
  length [true] <= length [1%Z; 2%Z] /\
  Align.lpadZipWith [1%Z; 2%Z] [true] (fun a b => tuple a b) =
    Ok (zip_with (fun a b => tuple (some a) b) [1%Z; 2%Z] [true]).
Proof.
  assert (H : length [true] <= length [1%Z; 2%Z]) by (simpl; lia).
  split; [exact H|].
  exact (proj2 (proj2 (proj2
    (lpadZipWith_zip [1%Z; 2%Z] [true] (fun a b => tuple a b)
       (fun a _ => tuple (some a) true)))) H).
Defined.
